(** * Region layout of the zkEVM worst-case estimator

    A shallow embedding of [zkevm-worst-case.py]: the region model, the two
    layout strategies [solve_v1] (one row, left to right) and [solve_v3]
    (shelves of stacked regions), the validator [check_valid], the usage
    estimator [get_advice] / [cell_usage] and the region catalog
    [get_regions], followed by the properties proved about them.

    Python integers are unbounded, so they are modelled by [Z].  The gas
    budget and the rows-per-gas ratios are Python floats, modelled by
    Rocq's primitive binary64 floats.  What the program prints is modelled
    by a list of events returned next to the value. *)

From Stdlib Require Import ZArith List String Bool Lia Permutation.
From Stdlib Require Import QArith Floats.
Import ListNotations.

Set Warnings "-inexact-float".

Open Scope string_scope.
Open Scope Z_scope.

(** ** Data model *)

(** [class Region]: a dataclass with fields [name], [width], [height], [x],
    [y]; the last two default to [-1].  [name] is annotated [str], but
    [get_regions] stores the circuit entry of the configuration in it, which
    may be [None]; hence [option string]. *)
Record Region : Type := mkRegion {
  name : option string;
  width : Z;
  height : Z;
  x : Z;
  y : Z
}.

(** [Region(name, width, height)]: the constructor call with defaults. *)
Definition new_region (nm : option string) (w h : Z) : Region :=
  mkRegion nm w h (-1) (-1).

(** [region.y = ...; region.x = ...] *)
Definition place (r : Region) (rx ry : Z) : Region :=
  mkRegion (name r) (width r) (height r) rx ry.

(** What a region is before it is placed: the catalog triple. *)
Definition dims (r : Region) : option string * Z * Z :=
  (name r, width r, height r).

(** [class Point] *)
Record Point : Type := mkPoint { px : Z; py : Z }.

(** [Region.overlap]:
    [(self.x <= other.x and self.x+self.width > other.x) and
     (self.y <= other.y and self.y+self.height > other.y)] *)
Definition overlap (self other : Region) : bool :=
  ((x self <=? x other) && (x other <? x self + width self)) &&
  ((y self <=? y other) && (y other <? y self + height self)).

(** The geometric notion the validator is meant to decide: the half-open
    boxes [[x, x+width) x [y, y+height)] of two regions intersect. *)
Definition intersects (r1 r2 : Region) : Prop :=
  Z.max (x r1) (x r2) < Z.min (x r1 + width r1) (x r2 + width r2) /\
  Z.max (y r1) (y r2) < Z.min (y r1 + height r1) (y r2 + height r2).

Definition intersectsb (r1 r2 : Region) : bool :=
  (Z.max (x r1) (x r2) <? Z.min (x r1 + width r1) (x r2 + width r2)) &&
  (Z.max (y r1) (y r2) <? Z.min (y r1 + height r1) (y r2 + height r2)).

(** ** Printed output *)

(** One constructor per [print] of the layout code. *)
Inductive event : Type :=
| OverHeight (region : Region)          (* "Region {region} over 2^k height" *)
| Overlapping (r1 r2 : Region)          (* "Overlapping regions {r1} and {r2}" *)
| InvalidSolution.                      (* "Invalid solution" *)

(** A computation that prints: the events in order, and the value. *)
Definition Out (A : Type) : Type := (list event * A)%type.

(** ** The validator *)

(** [n = 2**k]; the exponent is a natural number (the program uses 26). *)
Definition table_height (k : nat) : Z := 2 ^ Z.of_nat k.

(** The first loop of [check_valid]: the first region with
    [region.y + region.height > n], if any. *)
Definition over_height (n : Z) (region : Region) : bool :=
  n <? y region + height region.

(** The inner loop, [for j in range(i+1, len(regions))], over the regions
    after [regions[i]]: the first one that [regions[i]] overlaps. *)
Definition first_overlapped (ri : Region) (rest : list Region) : option Region :=
  find (overlap ri) rest.

(** The outer loop, [for i in range(0, len(regions))]. *)
Fixpoint first_overlap (regions : list Region) : option (Region * Region) :=
  match regions with
  | [] => None
  | ri :: rest =>
      match first_overlapped ri rest with
      | Some rj => Some (ri, rj)
      | None => first_overlap rest
      end
  end.

(** [check_valid(k, regions)]: returns at the first violation it meets. *)
Definition check_valid (k : nat) (regions : list Region) : Out bool :=
  let n := table_height k in
  match find (over_height n) regions with
  | Some region => ([OverHeight region], false)
  | None =>
      match first_overlap regions with
      | Some (ri, rj) => ([Overlapping ri rj], false)
      | None => ([], true)
      end
  end.

(** ** NaiveLayout *)

(** The loop of [solve_v1]; [cur_width] is the local [width]. *)
Fixpoint solve_v1_loop (cur_width : Z) (regions : list Region) : list Region :=
  match regions with
  | [] => []
  | region :: rest =>
      place region cur_width 0 ::
      solve_v1_loop (cur_width + width region) rest
  end.

(** The tail shared by both solvers:
    [if not check_valid(k, regions): print("Invalid solution")],
    then [return regions]. *)
Definition checked (k : nat) (regions : list Region) : Out (list Region) :=
  let '(out, ok) := check_valid k regions in
  (if ok then out else (out ++ [InvalidSolution])%list, regions).

(** [solve_v1(k, regions)] *)
Definition solve_v1 (k : nat) (regions : list Region) : Out (list Region) :=
  checked k (solve_v1_loop 0 regions).

(** ** ShelfLayout *)

(** Modelled from Python's built-in [sorted(iterable, key=...)]: ascending
    by key, and stable (equal keys keep their input order).  Insertion of
    each element in front of the already sorted rest, before the first
    element whose key is not smaller. *)
Fixpoint insert_by {A : Type} (key : A -> Z) (a : A) (l : list A) : list A :=
  match l with
  | [] => [a]
  | b :: l' => if key a <=? key b then a :: b :: l' else b :: insert_by key a l'
  end.

Fixpoint sorted {A : Type} (key : A -> Z) (l : list A) : list A :=
  match l with
  | [] => []
  | a :: l' => insert_by key a (sorted key l')
  end.

(** One iteration of the loop of [solve_v3]: the placed region, and the new
    [position] and [width] ([cur_width]). *)
Definition solve_v3_step (n : Z) (position : Point) (cur_width : Z)
    (region : Region) : Region * Point * Z :=
  if py position + height region <? n then
    (place region (px position) (py position),
     mkPoint (px position) (py position + height region),
     if cur_width <? width region then width region else cur_width)
  else
    let position := mkPoint (px position + cur_width) (py position) in
    (place region (px position) 0,
     mkPoint (px position) (height region),
     width region).

Fixpoint solve_v3_loop (n : Z) (position : Point) (cur_width : Z)
    (regions : list Region) : list Region :=
  match regions with
  | [] => []
  | region :: rest =>
      let '(region, position, cur_width) :=
        solve_v3_step n position cur_width region in
      region :: solve_v3_loop n position cur_width rest
  end.

(** [solve_v3(k, regions)] *)
Definition solve_v3 (k : nat) (regions : list Region) : Out (list Region) :=
  let n := table_height k in
  let regions := sorted (fun r => - height r) regions in
  checked k (solve_v3_loop n (mkPoint 0 0) 0 regions).

(** ** UsageEstimator *)

Fixpoint get_advice_loop (advice : Z) (regions : list Region) : Z :=
  match regions with
  | [] => advice
  | region :: rest =>
      let max_col := x region + width region in
      get_advice_loop (if advice <? max_col then max_col else advice) rest
  end.

(** [get_advice(regions)] *)
Definition get_advice (regions : list Region) : Z := get_advice_loop 0 regions.

(** [cell_usage(k, regions)]: the pair [(area, used_cells)]. *)
Definition cell_usage (k : nat) (regions : list Region) : Z * Z :=
  let advice := get_advice regions in      (* the local [width] *)
  let n := table_height k in                (* the local [height] *)
  let area := advice * n in
  let used_cells :=
    fold_left (fun used_cells region => used_cells + width region * height region)
              regions 0 in
  (area, used_cells).

(** ** Exceptions *)

Inductive exn : Type :=
| ZeroDivisionError
| KeyError (key : option string)
| OverflowError
| ValueError
| TypeError.

Definition result (A : Type) : Type := (exn + A)%type.

Definition ret {A : Type} (a : A) : result A := inr a.
Definition raise {A : Type} (e : exn) : result A := inl e.
Definition bind {A B : Type} (c : result A) (k : A -> result B) : result B :=
  match c with
  | inl e => inl e
  | inr a => k a
  end.

Notation "x <- c ;; k" := (bind c (fun x => k))
  (at level 61, c at next level, right associativity).

(** [a / b] on two integers, Python's true division: [ZeroDivisionError]
    when [b == 0]; otherwise the binary64 float nearest to the exact
    quotient (ties to even; a quotient too small for a float gives a zero
    with the sign of the quotient), and [OverflowError] when that float
    would be beyond the largest one.  The quotient of the two magnitudes is
    taken with enough bits and a location of the remainder
    ([SFdiv_core_binary]), then rounded ([binary_round_aux]). *)
Definition true_div (a b : Z) : result float :=
  if b =? 0 then raise ZeroDivisionError
  else
    let negate := xorb (a <? 0) (b <? 0) in
    if a =? 0 then ret (if negate then neg_zero else zero)
    else
      let '(m, e, l) := SFdiv_core_binary prec emax (Z.abs a) 0 (Z.abs b) 0 in
      match binary_round_aux prec emax negate m e l with
      | S754_infinity _ => raise OverflowError
      | r => ret (SF2Prim r)
      end.

(** The utilization of a layout as [main] computes it:
    [area, used_cells = cell_usage(k, regions)] and then the quotient
    [used_cells/area] (which [main] prints as a percentage). *)
Definition utilization (k : nat) (regions : list Region) : result float :=
  let '(area, used_cells) := cell_usage k regions in
  true_div used_cells area.

(** ** RegionCatalog *)

(** The values of the [rows_per_gas] table: [None], the integer literal
    [0], or a float literal. *)
Inductive ratio : Type :=
| RNone
| RInt (z : Z)
| RFloat (f : float).

(** [circuits_tables] *)
Definition circuits_tables : list (option string * option string) :=
  [ (Some "evm", None);
    (Some "bytecode", Some "bytecode");
    (Some "copy", Some "copy");
    (Some "exp", Some "exp");
    (Some "keccak", Some "keccak");
    (Some "mpt", Some "mpt");
    (Some "rw", Some "rw");
    (Some "tx", Some "tx");
    (Some "sig", Some "sig");
    (Some "ecc", None);
    (Some "pi", None);
    (None, Some "block");
    (None, Some "u8");
    (None, Some "u10");
    (None, Some "u16") ].

(** [rows_per_gas] *)
Definition rows_per_gas : list (string * ratio) :=
  [ ("evm", RFloat 4.5);
    ("bytecode", RFloat 9.47);
    ("copy", RFloat 21.3);
    ("exp", RFloat 1.09);
    ("keccak", RFloat 90.5);
    ("mpt", RFloat 0.95);
    ("rw", RFloat 11.33);
    ("tx", RFloat 8.73);
    ("ecc", RNone);
    ("pi", RFloat 0.33);
    ("block", RInt 0);
    ("sig", RNone);
    ("u8", RInt 0);
    ("u10", RInt 0);
    ("u16", RInt 0) ].

(** [min_rows] *)
Definition min_rows : list (string * Z) :=
  [ ("tx", 295188);
    ("block", 264);
    ("u8", 2 ^ 8);
    ("u10", 2 ^ 10);
    ("u16", 2 ^ 16) ].

(** [adv_cols] *)
Definition adv_cols : list (string * Z) :=
  [ ("tx_table", 4);
    ("wd_table", 5);
    ("rw_table", 14);
    ("mpt_table", 12);
    ("bytecode_table", 6);
    ("block_table", 2);
    ("copy_table", 12);
    ("exp_table", 5);
    ("keccak_table", 5);
    ("sig_table", 9);
    ("u8_table", 0);
    ("u10_table", 0);
    ("u16_table", 0);
    ("keccak", 198);
    ("pi", 10);
    ("tx", 6);
    ("bytecode", 6);
    ("copy", 14);
    ("rw", 49);
    ("exp", 10);
    ("evm", 131);
    ("mpt", 144);
    ("ecc", 0);
    ("sig", 0) ].

(** Lookup in a dict literal (the keys of each table are distinct). *)
Fixpoint lookup {V : Type} (d : list (string * V)) (key : string) : option V :=
  match d with
  | [] => None
  | (k, v) :: d' => if String.eqb k key then Some v else lookup d' key
  end.

(** [d[key]]: raises [KeyError] when the key is absent; [None] is a key of
    none of the tables. *)
Definition getitem {V : Type} (d : list (string * V)) (key : option string)
    : result V :=
  match key with
  | None => raise (KeyError None)
  | Some s =>
      match lookup d s with
      | Some v => ret v
      | None => raise (KeyError key)
      end
  end.

(** Truth value of a configuration entry ([if circuit:], [if table:]):
    [None] and the empty string are false. *)
Definition truthy_name (o : option string) : bool :=
  match o with
  | None => false
  | Some s => negb (String.eqb s "")
  end.

(** Truth value of a ratio ([if not rows_gas:]): [None], [0] and [0.0]
    are false; a NaN is true. *)
Definition truthy_ratio (r : ratio) : bool :=
  match r with
  | RNone => false
  | RInt z => negb (z =? 0)
  | RFloat f => negb (PrimFloat.eqb f 0)
  end.

(** Conversion of an integer operand to a float, to the nearest binary64;
    [OverflowError] when it is out of range. *)
Definition float_of_int (z : Z) : result float :=
  let f := SF2Prim (binary_normalize prec emax z 0 false) in
  if is_infinity f then raise OverflowError else ret f.

(** [gas * rows_gas] for a float [gas]: a float ratio is multiplied, an
    integer ratio is converted first, and [None] is a [TypeError] (the guard
    before the product keeps [None] away from it). *)
Definition mul_ratio (gas : float) (r : ratio) : result float :=
  match r with
  | RNone => raise TypeError
  | RInt z => f <- float_of_int z ;; ret (PrimFloat.mul gas f)
  | RFloat f => ret (PrimFloat.mul gas f)
  end.

(** Truncation toward zero of a finite float ([0] on the others). *)
Definition trunc_float (f : float) : Z :=
  match Prim2SF f with
  | S754_finite s m e =>
      let a := if 0 <=? e then Z.pos m * 2 ^ e else Z.pos m / 2 ^ (- e) in
      if s then - a else a
  | _ => 0
  end.

(** [int(f)] for a float: truncation toward zero; [OverflowError] on an
    infinity, [ValueError] on a NaN. *)
Definition int_of_float (f : float) : result Z :=
  if is_nan f then raise ValueError
  else if is_infinity f then raise OverflowError
  else ret (trunc_float f).

(** [max(rows, min_rows[name])] under [try: ... except KeyError: pass]. *)
Definition clamp_rows (nm : option string) (rows : Z) : Z :=
  match getitem min_rows nm with
  | inr m => Z.max rows m
  | inl _ => rows
  end.

(** The body of the loop of [get_regions] for one [(circuit, table)]:
    [None] is the [continue], [Some region] the [regions.append]. *)
Definition get_regions_body (gas : float) (circuit table : option string)
    : result (option Region) :=
  let w := 0 in
  w <- (if truthy_name circuit
        then c <- getitem adv_cols circuit ;; ret (w + c)
        else ret w) ;;
  w <- (if truthy_name table
        then t <- getitem adv_cols (option_map (fun s => s ++ "_table")%string table) ;;
             ret (w + t)
        else ret w) ;;
  let nm := if truthy_name circuit then circuit else table in
  rows_gas <- getitem rows_per_gas nm ;;
  if negb (truthy_ratio rows_gas) then ret None
  else
    p <- mul_ratio gas rows_gas ;;
    rows <- int_of_float p ;;
    let rows := clamp_rows nm rows in
    ret (Some (new_region circuit w rows)).

Fixpoint get_regions_loop (gas : float) (pairs : list (option string * option string))
    : result (list Region) :=
  match pairs with
  | [] => ret []
  | (circuit, table) :: rest =>
      o <- get_regions_body gas circuit table ;;
      regions <- get_regions_loop gas rest ;;
      ret (match o with Some region => region :: regions | None => regions end)
  end.

(** [get_regions(gas)]; [gas] is the float that [max_gas] returns. *)
Definition get_regions (gas : float) : result (list Region) :=
  get_regions_loop gas circuits_tables.

(** ** Fixed columns *)

(** [fix_cols] *)
Definition fix_cols : list (string * Z) :=
  [ ("tx_table", 1);
    ("wd_table", 0);
    ("rw_table", 0);
    ("mpt_table", 0);
    ("bytecode_table", 0);
    ("block_table", 2);
    ("copy_table", 1);
    ("exp_table", 1);
    ("keccak_table", 0);
    ("sig_table", 1);
    ("u8_table", 1);
    ("u10_table", 1);
    ("u16_table", 1);
    ("keccak", 18);
    ("pi", 3);
    ("tx", 13);
    ("bytecode", 5);
    ("copy", 1);
    ("rw", 3);
    ("exp", 0);
    ("evm", 5);
    ("mpt", 8);
    ("ecc", 0);
    ("sig", 0) ].

(** The loop of [get_fixed] over the pairs that are left, from the running
    count [fixed]. *)
Fixpoint get_fixed_loop (fixed : Z) (pairs : list (option string * option string))
    : result Z :=
  match pairs with
  | [] => ret fixed
  | (circuit, table) :: rest =>
      fixed <- (if truthy_name circuit
                then c <- getitem fix_cols circuit ;; ret (fixed + c)
                else ret fixed) ;;
      fixed <- (if truthy_name table
                then t <- getitem fix_cols
                            (option_map (fun s => s ++ "_table")%string table) ;;
                     ret (fixed + t)
                else ret fixed) ;;
      get_fixed_loop fixed rest
  end.

(** [get_fixed()] *)
Definition get_fixed : result Z := get_fixed_loop 0 circuits_tables.

(** ** Memory estimate *)

(** [next_power_of_2(x)]: [1 if x == 0 else 2**math.ceil(math.log2(x))].
    [math.log2] belongs to the C library; the integer that
    [math.ceil(math.log2(x))] yields on a positive [x] is the parameter
    [ceil_log2].  On a negative [x], [math.log2] raises [ValueError]. *)
Definition next_power_of_2 (ceil_log2 : Z -> Z) (x : Z) : result Z :=
  if x =? 0 then ret 1
  else if x <? 0 then raise ValueError
  else ret (2 ^ ceil_log2 x).

(** [field_bytes] *)
Definition field_bytes : Z := 32.

(** [estimate_mem(degree, k, fixed, advice)] *)
Definition estimate_mem (ceil_log2 : Z -> Z) (degree : Z) (k : nat)
    (fixed advice : Z) : result Z :=
  let c_f := fixed in
  let c_a := advice in
  let m_e := 4 + c_f + c_a in
  e <- next_power_of_2 ceil_log2 (degree - 1) ;;
  ret (e * m_e * 2 ^ Z.of_nat k * field_bytes).

(** [to_gb(x)]: [x//1024//1024//1024], floor divisions of integers. *)
Definition to_gb (x : Z) : Z := x / 1024 / 1024 / 1024.

(** ** Maximum gas *)

(** Exact comparison of a float with an integer, as Python compares the
    two: [f > z] and [z > f].  A NaN compares false. *)
Definition float_gt_int (f : float) (z : Z) : bool :=
  match Prim2SF f with
  | S754_nan => false
  | S754_infinity s => negb s
  | S754_zero _ => z <? 0
  | S754_finite s m e =>
      let v := if s then Z.neg m else Z.pos m in
      if 0 <=? e then z <? v * 2 ^ e else z * 2 ^ (- e) <? v
  end.

Definition int_gt_float (z : Z) (f : float) : bool :=
  match Prim2SF f with
  | S754_nan => false
  | S754_infinity s => s
  | S754_zero _ => 0 <? z
  | S754_finite s m e =>
      let v := if s then Z.neg m else Z.pos m in
      if 0 <=? e then v * 2 ^ e <? z else v <? z * 2 ^ (- e)
  end.

(** [a > b] on two numbers of the table; [None] is not ordered. *)
Definition ratio_gt (a b : ratio) : result bool :=
  match a, b with
  | RInt z, RInt z' => ret (z' <? z)
  | RInt z, RFloat f => ret (int_gt_float z f)
  | RFloat f, RInt z => ret (float_gt_int f z)
  | RFloat f, RFloat f' => ret (PrimFloat.ltb f' f)
  | _, _ => raise TypeError
  end.

(** The C library's [fmod]: the exact remainder of the truncated quotient,
    with the sign of the dividend. *)
Definition float_fmod (vx wx : float) : float :=
  match Prim2SF vx, Prim2SF wx with
  | S754_nan, _ | _, S754_nan => nan
  | S754_infinity _, _ => nan
  | _, S754_zero _ => nan
  | S754_zero _, _ => vx
  | S754_finite _ _ _, S754_infinity _ => vx
  | S754_finite sx mx ex, S754_finite _ my ey =>
      let e := Z.min ex ey in
      let r := (Z.pos mx * 2 ^ (ex - e)) mod (Z.pos my * 2 ^ (ey - e)) in
      SF2Prim (binary_normalize prec emax (if sx then - r else r) e sx)
  end.

(** The C library's [floor]. *)
Definition float_floor (f : float) : float :=
  match Prim2SF f with
  | S754_finite s m e =>
      if 0 <=? e then f
      else
        let v := if s then Z.neg m else Z.pos m in
        SF2Prim (binary_normalize prec emax (v / 2 ^ (- e)) 0 false)
  | _ => f
  end.

(** [vx // wx] on two floats, as the interpreter computes it: the remainder
    by [fmod], the quotient [(vx - mod) / wx], one less when the remainder
    and the divisor differ in sign, then snapped to the nearest integral
    value; a zero quotient takes the sign of [vx / wx]. *)
Definition float_floordiv (vx wx : float) : result float :=
  if PrimFloat.eqb wx 0 then raise ZeroDivisionError
  else
    let md := float_fmod vx wx in
    let div := PrimFloat.div (PrimFloat.sub vx md) wx in
    let div :=
      if negb (PrimFloat.eqb md 0)
      then if negb (Bool.eqb (PrimFloat.ltb wx 0) (PrimFloat.ltb md 0))
           then PrimFloat.sub div 1 else div
      else div in
    if negb (PrimFloat.eqb div 0) then
      let floordiv := float_floor div in
      ret (if PrimFloat.ltb 0.5 (PrimFloat.sub div floordiv)
           then PrimFloat.add floordiv 1 else floordiv)
    else
      ret (if get_sign (PrimFloat.div vx wx) then neg_zero else zero).

(** [a // b] for an integer [a] and a number [b] of the table. *)
Definition int_floordiv (a : Z) (b : ratio) : result ratio :=
  match b with
  | RNone => raise TypeError
  | RInt z => if z =? 0 then raise ZeroDivisionError else ret (RInt (a / z))
  | RFloat f =>
      vx <- float_of_int a ;;
      q <- float_floordiv vx f ;;
      ret (RFloat q)
  end.

(** The loop of [max_gas] over the values of [rows_per_gas] that are left. *)
Fixpoint max_gas_loop (max_rows_per_gas : ratio) (values : list ratio)
    : result ratio :=
  match values with
  | [] => ret max_rows_per_gas
  | value :: rest =>
      if negb (truthy_ratio value) then max_gas_loop max_rows_per_gas rest
      else
        b <- ratio_gt value max_rows_per_gas ;;
        max_gas_loop (if b : bool then value else max_rows_per_gas) rest
  end.

(** [max_gas(k)]: [2**k // max_rows_per_gas]. *)
Definition max_gas (k : nat) : result ratio :=
  max_rows_per_gas <- max_gas_loop (RInt 0) (map snd rows_per_gas) ;;
  int_floordiv (2 ^ Z.of_nat k) max_rows_per_gas.

(** ** Notions used in the statements *)

(** A list is ascending in a key. *)
Inductive ascending {A : Type} (key : A -> Z) : list A -> Prop :=
| asc_nil : ascending key []
| asc_one a : ascending key [a]
| asc_cons a b l :
    key a <= key b -> ascending key (b :: l) -> ascending key (a :: b :: l).

(** No two regions at different positions of the list intersect. *)
Definition pairwise_disjoint (l : list Region) : Prop :=
  forall (i j : nat) (r1 r2 : Region),
    i <> j -> nth_error l i = Some r1 -> nth_error l j = Some r2 ->
    ~ intersects r1 r2.

(** A region placed before the loop of [solve_v3] reached the state
    [(position, cur_width)]: it ends left of the current shelf, or it sits
    on the shelf above the cursor and within the shelf's width. *)
Definition behind (position : Point) (cur_width : Z) (r : Region) : Prop :=
  x r + width r <= px position + cur_width /\
  (x r + width r <= px position \/ y r + height r <= py position).

(** A region placed from the state [(position, cur_width)] on: it goes on
    the current shelf at or below the cursor, or right of the shelf. *)
Definition ahead (position : Point) (cur_width : Z) (r : Region) : Prop :=
  0 <= y r /\
  (px position + cur_width <= x r \/
   (x r = px position /\ py position <= y r)).

(** Sum of the widths of a region list. *)
Definition total_width (l : list Region) : Z :=
  fold_right (fun r acc => width r + acc) 0 l.

(** Sum of [width * height] over a region list. *)
Definition total_cells (l : list Region) : Z :=
  fold_right (fun r acc => width r * height r + acc) 0 l.

Arguments total_width : simpl never.
Arguments total_cells : simpl never.

(** The exact value, a rational number, of the quotient [used_cells/area]
    that [utilization] rounds to a float; undefined, like the quotient,
    when the area is 0.  A notion of the statements: the program only has
    the float. *)
Definition exact_utilization (k : nat) (regions : list Region) : result Q :=
  let '(area, used_cells) := cell_usage k regions in
  if area =? 0 then raise ZeroDivisionError
  else ret (inject_Z used_cells / inject_Z area)%Q.

(** *** The catalog as the specification words it *)

(** The name of a circuit/table pair: the circuit, or the table when there
    is no circuit. *)
Definition pair_name (pair : option string * option string) : option string :=
  match fst pair with
  | Some c => Some c
  | None => snd pair
  end.

(** The rows-per-gas ratio of a name when it is defined and not zero. *)
Definition usable_ratio (nm : option string) : option float :=
  match nm with
  | None => None
  | Some s =>
      match lookup rows_per_gas s with
      | Some (RFloat f) => if PrimFloat.eqb f 0 then None else Some f
      | Some (RInt z) =>
          if z =? 0 then None
          else Some (SF2Prim (binary_normalize prec emax z 0 false))
      | Some RNone | None => None
      end
  end.

(** The advice-column count of a circuit, or of a table (with the suffix
    ["_table"]); an absent one contributes zero. *)
Definition advice_columns (o : option string) (suffix : string) : Z :=
  match o with
  | None => 0
  | Some s =>
      match lookup adv_cols (s ++ suffix)%string with
      | Some c => c
      | None => 0
      end
  end.

(** The integer part of gas times the ratio, clamped upward to the
    minimum-row floor of the name when there is one. *)
Definition catalog_rows (gas : float) (nm : option string) (f : float) : Z :=
  let rows := trunc_float (PrimFloat.mul gas f) in
  match nm with
  | Some s =>
      match lookup min_rows s with
      | Some floor => Z.max rows floor
      | None => rows
      end
  | None => rows
  end.

(** The region of a pair, if its name has a usable ratio. *)
Definition catalog_region (gas : float) (pair : option string * option string)
    : option Region :=
  match usable_ratio (pair_name pair) with
  | None => None
  | Some f =>
      Some (new_region (fst pair)
              (advice_columns (fst pair) "" + advice_columns (snd pair) "_table")
              (catalog_rows gas (pair_name pair) f))
  end.

(** The catalog: the regions of the pairs, in the order of the
    configuration. *)
Definition catalog (gas : float) : list Region :=
  flat_map (fun pair => match catalog_region gas pair with
                        | Some r => [r]
                        | None => []
                        end) circuits_tables.

(** The gas budget is in range: its product with every float ratio of the
    table is a finite float. *)
Definition finite_rows (gas : float) : bool :=
  forallb (fun entry => match snd entry with
                        | RFloat f => is_finite (PrimFloat.mul gas f)
                        | _ => true
                        end) rows_per_gas.

(** *** Notions for the further properties *)

(** Sum of the heights of a region list. *)
Definition total_height (l : list Region) : Z :=
  fold_right (fun r acc => height r + acc) 0 l.

Arguments total_height : simpl never.

(** The state [(position, width)] in which the loop of [solve_v3] ends. *)
Fixpoint solve_v3_final (n : Z) (position : Point) (cur_width : Z)
    (regions : list Region) : Point * Z :=
  match regions with
  | [] => (position, cur_width)
  | region :: rest =>
      let '(_, position, cur_width) :=
        solve_v3_step n position cur_width region in
      solve_v3_final n position cur_width rest
  end.

(** A region has positive sizes. *)
Definition positive_sizes (r : Region) : Prop := 0 < width r /\ 0 < height r.

(** Checks, by evaluation, used for the exponents of a range. *)

(** [max_gas k] is the float of the integer [2^(k+1) / 181], the floor of
    [2^k / 90.5]. *)
Definition max_gas_exactb (k : nat) : bool :=
  let q := 2 ^ (Z.of_nat k + 1) / 181 in
  match max_gas k, float_of_int q with
  | inr (RFloat g), inr g' =>
      PrimFloat.Leibniz.eqb g g' &&
      match int_of_float g with
      | inr z => z =? q
      | inl _ => false
      end
  | _, _ => false
  end.

(** The catalog of [max_gas k] has positive sizes that fit the table
    height. *)
Definition catalog_fitsb (k : nat) : bool :=
  match max_gas k with
  | inr (RFloat gas) =>
      match get_regions gas with
      | inr regions =>
          forallb (fun r => (0 <? width r) && (0 <? height r) &&
                            (height r <=? table_height k)) regions
      | inl _ => false
      end
  | _ => false
  end.

(** The events are the report of the region "tx" with its floor as
    height, then "Invalid solution". *)
Definition tx_reportedb (events : list event) : bool :=
  match events with
  | [OverHeight r; InvalidSolution] =>
      match name r with
      | Some s => String.eqb s "tx" && (height r =? 295188)
      | None => false
      end
  | _ => false
  end.

(** Both solvers report "tx" on the catalog of [max_gas k]. *)
Definition tx_too_tallb (k : nat) : bool :=
  match max_gas k with
  | inr (RFloat gas) =>
      match get_regions gas with
      | inr regions =>
          tx_reportedb (fst (solve_v1 k regions)) &&
          tx_reportedb (fst (solve_v3 k regions))
      | inl _ => false
      end
  | _ => false
  end.

(** ** The overlap test *)

(** [overlap self other] holds exactly when the corner [(x, y)] of [other]
    lies in the box of [self]. *)
Lemma overlap_spec (self other : Region) :
  overlap self other = true <->
  (x self <= x other < x self + width self) /\
  (y self <= y other < y self + height self).
Proof.
  unfold overlap.
  rewrite !andb_true_iff, !Z.leb_le, !Z.ltb_lt. lia.
Qed.

Lemma intersectsb_spec (r1 r2 : Region) :
  intersectsb r1 r2 = true <-> intersects r1 r2.
Proof.
  unfold intersectsb, intersects.
  rewrite andb_true_iff, !Z.ltb_lt. reflexivity.
Qed.

Lemma intersects_sym (r1 r2 : Region) : intersects r1 r2 -> intersects r2 r1.
Proof. unfold intersects. lia. Qed.

(** A contained corner is an intersection when the other box is not empty. *)
Lemma overlap_intersects (self other : Region) :
  0 < width other -> 0 < height other ->
  overlap self other = true -> intersects self other.
Proof.
  intros Hw Hh H. apply overlap_spec in H. unfold intersects. lia.
Qed.

(** C1 (the code at the failing input): the region at x=1 does not contain
    the corner of the wider region that starts at x=0, so [overlap] answers
    [false] and [check_valid] accepts the pair without a diagnostic,
    although the two boxes intersect; with the arguments swapped [overlap]
    answers [true], so the test is not symmetric. *)
Theorem overlap_misses_intersection :
  let r1 := mkRegion (Some "a") 1 1 1 0 in
  let r2 := mkRegion (Some "b") 2 1 0 0 in
  overlap r1 r2 = false /\ overlap r2 r1 = true /\
  intersects r1 r2 /\ intersectsb r1 r2 = true /\
  check_valid 1 [r1; r2] = ([], true).
Proof.
  cbv zeta. repeat split; try reflexivity; vm_compute; reflexivity.
Qed.

(** ** The concrete scenario *)

(** C8: with k = 3 (table height 8) and the catalog order A(w=2,h=3),
    B(w=2,h=3), C(w=1,h=2), [solve_v3] places A at (0,0), B at (0,3) and C
    at (2,0), of total width 3, and [solve_v1] places A at (0,0), B at (2,0)
    and C at (4,0), of total width 5; neither prints anything. *)
Theorem concrete_scenario :
  let A := new_region (Some "A") 2 3 in
  let B := new_region (Some "B") 2 3 in
  let C := new_region (Some "C") 1 2 in
  table_height 3 = 8 /\
  solve_v3 3 [A; B; C] = ([], [place A 0 0; place B 0 3; place C 2 0]) /\
  get_advice (snd (solve_v3 3 [A; B; C])) = 3 /\
  solve_v1 3 [A; B; C] = ([], [place A 0 0; place B 2 0; place C 4 0]) /\
  get_advice (snd (solve_v1 3 [A; B; C])) = 5.
Proof.
  cbv zeta. repeat split; vm_compute; reflexivity.
Qed.

(** ** The strict comparison of ShelfLayout *)

(** C6: when the height of a region is exactly the space left on the shelf
    ([position.y + height = n]), the loop body starts a new shelf: the region
    goes to [(position.x + width, 0)].  With table height 8 and the sorted
    regions A(h=5), B(h=3), A is placed at (0,0) and B at x = the width of
    A's shelf, y = 0. *)
Theorem exact_fit_starts_new_shelf
    (n : Z) (position : Point) (cur_width : Z) (region : Region)
    (nmA nmB : option string) (wA wB : Z) :
  py position + height region = n ->
  0 < wA ->
  solve_v3_step n position cur_width region =
    (place region (px position + cur_width) 0,
     mkPoint (px position + cur_width) (height region),
     width region) /\
  snd (solve_v3 3 [new_region nmA wA 5; new_region nmB wB 3]) =
    [mkRegion nmA wA 5 0 0; mkRegion nmB wB 3 wA 0].
Proof.
  intros Hfit HwA. split.
  - unfold solve_v3_step.
    replace (py position + height region <? n) with false
      by (symmetry; apply Z.ltb_ge; lia).
    reflexivity.
  - unfold solve_v3, checked.
    destruct (check_valid _ _) as [out ok]. cbn [snd].
    cbn. apply Z.ltb_lt in HwA. rewrite HwA. reflexivity.
Qed.

Lemma exact_fit_starts_new_shelf_witness :
  solve_v3_step 8 (mkPoint 0 5) 2 (new_region (Some "B") 4 3) =
    (mkRegion (Some "B") 4 3 2 0, mkPoint 2 3, 4) /\
  snd (solve_v3 3 [new_region (Some "A") 2 5; new_region (Some "B") 4 3]) =
    [mkRegion (Some "A") 2 5 0 0; mkRegion (Some "B") 4 3 2 0].
Proof.
  apply (exact_fit_starts_new_shelf 8 (mkPoint 0 5) 2 (new_region (Some "B") 4 3)
           (Some "A") (Some "B") 2 4).
  - reflexivity.
  - lia.
Defined.

(** ** The sort of ShelfLayout *)

Section Sorted.
Context {A : Type} (key : A -> Z).

Lemma insert_by_perm (a : A) (l : list A) :
  Permutation (insert_by key a l) (a :: l).
Proof.
  induction l as [| b l IH]; cbn.
  - reflexivity.
  - destruct (key a <=? key b).
    + reflexivity.
    + rewrite IH. apply perm_swap.
Qed.

Lemma sorted_perm (l : list A) : Permutation (sorted key l) l.
Proof.
  induction l as [| a l IH]; cbn.
  - reflexivity.
  - rewrite insert_by_perm. now apply perm_skip.
Qed.

(** Inserting [a] changes the elements of key [h] only by [a] itself,
    which comes first among them. *)
Lemma insert_by_filter (h : Z) (a : A) (l : list A) :
  filter (fun b => key b =? h) (insert_by key a l) =
  filter (fun b => key b =? h) (a :: l).
Proof.
  induction l as [| b l IH]; cbn.
  - reflexivity.
  - destruct (key a <=? key b) eqn:Hab; cbn.
    + reflexivity.
    + rewrite IH. cbn.
      destruct (key a =? h) eqn:Ha, (key b =? h) eqn:Hb; try reflexivity.
      apply Z.eqb_eq in Ha, Hb. apply Z.leb_gt in Hab. lia.
Qed.

Lemma sorted_filter (h : Z) (l : list A) :
  filter (fun b => key b =? h) (sorted key l) =
  filter (fun b => key b =? h) l.
Proof.
  induction l as [| a l IH]; cbn.
  - reflexivity.
  - rewrite insert_by_filter. cbn. now rewrite IH.
Qed.

Lemma insert_by_ascending (a : A) (l : list A) :
  ascending key l -> ascending key (insert_by key a l).
Proof.
  induction 1 as [| b | b c l Hbc Hl IH]; cbn.
  - constructor.
  - destruct (key a <=? key b) eqn:E.
    + apply Z.leb_le in E. now repeat constructor.
    + apply Z.leb_gt in E. constructor; [lia | constructor].
  - destruct (key a <=? key b) eqn:E.
    + apply Z.leb_le in E. constructor; [lia |]. now constructor.
    + apply Z.leb_gt in E. cbn in IH.
      destruct (key a <=? key c); constructor; try lia; assumption.
Qed.

Lemma sorted_ascending (l : list A) : ascending key (sorted key l).
Proof.
  induction l; cbn; [constructor | now apply insert_by_ascending].
Qed.
End Sorted.

(** The loops only set [x] and [y]: name, width and height stay. *)
Lemma solve_v1_loop_dims (cur_width : Z) (regions : list Region) :
  map dims (solve_v1_loop cur_width regions) = map dims regions.
Proof.
  revert cur_width. induction regions as [| r l IH]; intros; cbn.
  - reflexivity.
  - now rewrite IH.
Qed.

Lemma solve_v3_step_dims (n : Z) (position : Point) (cur_width : Z) (region : Region) :
  dims (fst (fst (solve_v3_step n position cur_width region))) = dims region.
Proof.
  unfold solve_v3_step. now destruct (_ <? n).
Qed.

Lemma solve_v3_loop_dims (n : Z) (position : Point) (cur_width : Z)
    (regions : list Region) :
  map dims (solve_v3_loop n position cur_width regions) = map dims regions.
Proof.
  revert position cur_width. induction regions as [| r l IH]; intros; cbn.
  - reflexivity.
  - pose proof (solve_v3_step_dims n position cur_width r) as Hd.
    destruct (solve_v3_step n position cur_width r) as [[r' p'] w'].
    cbn in *. now rewrite IH, Hd.
Qed.

Lemma snd_checked (k : nat) (regions : list Region) :
  snd (checked k regions) = regions.
Proof.
  unfold checked. now destruct (check_valid k regions).
Qed.

Lemma solve_v3_dims (k : nat) (regions : list Region) :
  map dims (snd (solve_v3 k regions)) =
  map dims (sorted (fun r => - height r) regions).
Proof.
  unfold solve_v3. rewrite snd_checked. apply solve_v3_loop_dims.
Qed.

Lemma filter_map_comm {A B : Type} (f : A -> B) (p : B -> bool) (l : list A) :
  filter p (map f l) = map f (filter (fun a => p (f a)) l).
Proof.
  induction l as [| a l IH]; cbn; [reflexivity |].
  destruct (p (f a)); cbn; now rewrite IH.
Qed.

(** C7: the sort of [solve_v3] is by descending height and stable: for every
    input and every height [h], the regions of height [h] come out of the
    sort in the order they came in, and so do the regions that [solve_v3]
    returns (seen as their catalog triples name, width, height). *)
Theorem shelf_sort_stable (k : nat) (regions : list Region) (h : Z) :
  let by_height := sorted (fun r => - height r) regions in
  ascending (fun r => - height r) by_height /\
  filter (fun r => height r =? h) by_height =
    filter (fun r => height r =? h) regions /\
  filter (fun d => snd d =? h) (map dims (snd (solve_v3 k regions))) =
    filter (fun d => snd d =? h) (map dims regions).
Proof.
  cbv zeta.
  assert (Hf : forall l : list Region,
             filter (fun r => height r =? h) l =
             filter (fun r => - height r =? - h) l).
  { intros l. apply filter_ext. intros r.
    destruct (height r =? h) eqn:E1, (- height r =? - h) eqn:E2; try reflexivity;
      [apply Z.eqb_eq in E1; apply Z.eqb_neq in E2
      |apply Z.eqb_neq in E1; apply Z.eqb_eq in E2]; lia. }
  split; [apply sorted_ascending |]. split.
  - rewrite !Hf. apply (sorted_filter (fun r => - height r)).
  - rewrite solve_v3_dims, !filter_map_comm. f_equal. cbn.
    rewrite !Hf. apply (sorted_filter (fun r => - height r)).
Qed.

(** ** Placement invariants *)

Lemma ordered_pairs_disjoint (l : list Region) :
  ForallOrdPairs (fun r1 r2 => ~ intersects r1 r2) l -> pairwise_disjoint l.
Proof.
  induction 1 as [| a l Ha Hl IH]; intros i j r1 r2 Hij H1 H2.
  - destruct i; discriminate.
  - rewrite Forall_forall in Ha.
    destruct i as [| i], j as [| j]; cbn in H1, H2.
    + congruence.
    + injection H1 as <-. apply Ha. eapply nth_error_In; eassumption.
    + injection H2 as <-. intros Hi. apply intersects_sym in Hi. revert Hi.
      apply Ha. eapply nth_error_In; eassumption.
    + apply (IH i j); auto.
Qed.

Lemma behind_ahead_disjoint (position : Point) (cur_width : Z) (r r' : Region) :
  behind position cur_width r -> ahead position cur_width r' ->
  ~ intersects r r'.
Proof.
  unfold behind, ahead, intersects. lia.
Qed.

(** One step of [solve_v3]: the region it places is ahead of the old state
    and behind the new one, within the table, and whatever is ahead of the
    new state is ahead of the old one. *)
Lemma solve_v3_step_inv (n : Z) (position : Point) (cur_width : Z) (region : Region) :
  0 <= py position -> 0 <= cur_width ->
  0 <= width region -> 0 <= height region <= n ->
  let '(region', position', cur_width') :=
    solve_v3_step n position cur_width region in
  ahead position cur_width region' /\
  behind position' cur_width' region' /\
  y region' + height region' <= n /\
  0 <= py position' /\ 0 <= cur_width' /\
  px position <= px position' /\
  (forall r, ahead position' cur_width' r -> ahead position cur_width r).
Proof.
  intros Hy Hc Hw Hh. unfold solve_v3_step.
  destruct (py position + height region <? n) eqn:E.
  - apply Z.ltb_lt in E.
    destruct (cur_width <? width region) eqn:E2;
      [apply Z.ltb_lt in E2 | apply Z.ltb_ge in E2];
      unfold ahead, behind; cbn; repeat split; try lia; intros r; lia.
  - apply Z.ltb_ge in E.
    unfold ahead, behind; cbn; repeat split; try lia; intros r; lia.
Qed.

Lemma solve_v3_loop_inv (n : Z) (regions : list Region) :
  Forall (fun r => 0 <= width r /\ 0 <= height r <= n) regions ->
  forall (position : Point) (cur_width : Z),
    0 <= py position -> 0 <= cur_width ->
    let out := solve_v3_loop n position cur_width regions in
    Forall (fun r => ahead position cur_width r /\ y r + height r <= n) out /\
    ForallOrdPairs (fun r1 r2 => ~ intersects r1 r2) out.
Proof.
  induction 1 as [| region rest [Hw Hh] Hrest IH]; intros position cur_width Hy Hc.
  - cbn. split; constructor.
  - cbn.
    pose proof (solve_v3_step_inv n position cur_width region Hy Hc Hw Hh) as Hs.
    destruct (solve_v3_step n position cur_width region) as [[r' p'] w'].
    destruct Hs as (Ha & Hb & Hn & Hy' & Hc' & _ & Hmono).
    destruct (IH p' w' Hy' Hc') as [IHa IHd].
    split.
    + constructor; [now split |].
      eapply Forall_impl; [| exact IHa]. cbn. intros r [H1 H2]. split; auto.
    + constructor; [| exact IHd].
      eapply Forall_impl; [| exact IHa]. cbn. intros r [H1 _].
      eapply behind_ahead_disjoint; eassumption.
Qed.

(** The loop of [solve_v1]: every region is on row 0, at or right of the
    running width, and the regions are side by side. *)
Lemma solve_v1_loop_inv (regions : list Region) :
  Forall (fun r => 0 <= width r) regions ->
  forall cur_width : Z,
    let out := solve_v1_loop cur_width regions in
    Forall (fun r => cur_width <= x r /\ y r = 0) out /\
    ForallOrdPairs (fun r1 r2 => ~ intersects r1 r2) out.
Proof.
  induction 1 as [| region rest Hw Hrest IH]; intros cur_width.
  - cbn. split; constructor.
  - cbn. destruct (IH (cur_width + width region)) as [IHa IHd]. split.
    + constructor; [cbn; lia |].
      eapply Forall_impl; [| exact IHa]. cbn. lia.
    + constructor; [| exact IHd].
      eapply Forall_impl; [| exact IHa]. cbn. intros r [H1 H2].
      unfold intersects. cbn. lia.
Qed.

Lemma Forall_dims (P : option string * Z * Z -> Prop) (l l' : list Region) :
  Permutation (map dims l') (map dims l) ->
  Forall (fun r => P (dims r)) l -> Forall (fun r => P (dims r)) l'.
Proof.
  intros Hp H.
  rewrite <- (Forall_map dims P) in *.
  eapply Permutation_Forall; [symmetry; exact Hp | exact H].
Qed.

Lemma table_height_pos (k : nat) : 0 < table_height k.
Proof. unfold table_height. apply Z.pow_pos_nonneg; lia. Qed.

(** C2: for every exponent [k] and every region sequence whose widths are
    positive and whose heights are positive and at most [2^k], the result
    of [solve_v1] and the result of [solve_v3] hold the input regions (same
    names, widths and heights), each placed with [x >= 0], [y >= 0] and
    [y + height <= 2^k], and no two of them have intersecting boxes. *)
Theorem layouts_valid (k : nat) (regions out : list Region) :
  Forall (fun r => 0 < width r /\ 0 < height r <= table_height k) regions ->
  out = snd (solve_v1 k regions) \/ out = snd (solve_v3 k regions) ->
  Permutation (map dims out) (map dims regions) /\
  Forall (fun r => 0 <= x r /\ 0 <= y r /\ y r + height r <= table_height k) out /\
  pairwise_disjoint out.
Proof.
  intros Hwf [-> | ->].
  - unfold solve_v1. rewrite snd_checked.
    assert (Hd : map dims (solve_v1_loop 0 regions) = map dims regions)
      by apply solve_v1_loop_dims.
    destruct (solve_v1_loop_inv regions) with (cur_width := 0) as [Ha Hp].
    { eapply Forall_impl; [| exact Hwf]. cbn. lia. }
    split; [now rewrite Hd |]. split.
    + assert (Hh : Forall (fun r => snd (dims r) <= table_height k)
                     (solve_v1_loop 0 regions)).
      { apply (Forall_dims (fun d => snd d <= table_height k) regions).
        - now rewrite Hd.
        - eapply Forall_impl; [| exact Hwf]. cbn. lia. }
      rewrite Forall_forall in *. intros r Hr.
      specialize (Ha r Hr). specialize (Hh r Hr). cbn in Hh. lia.
    + now apply ordered_pairs_disjoint.
  - unfold solve_v3. rewrite snd_checked.
    set (srt := sorted (fun r => - height r) regions).
    assert (Hperm : Permutation srt regions) by apply sorted_perm.
    assert (Hwf' : Forall (fun r => 0 <= width r /\ 0 <= height r <= table_height k) srt).
    { eapply Permutation_Forall; [symmetry; exact Hperm |].
      eapply Forall_impl; [| exact Hwf]. cbn. lia. }
    destruct (solve_v3_loop_inv (table_height k) srt Hwf' (mkPoint 0 0) 0)
      as [Ha Hp]; cbn; try lia.
    split; [| split].
    + rewrite solve_v3_loop_dims. now apply Permutation_map.
    + eapply Forall_impl; [| exact Ha]. cbn. unfold ahead. cbn. lia.
    + now apply ordered_pairs_disjoint.
Qed.

Lemma layouts_valid_witness :
  let regions := [new_region (Some "A") 2 3; new_region (Some "B") 2 3;
                  new_region (Some "C") 1 2] in
  let out := snd (solve_v3 3 regions) in
  Permutation (map dims out) (map dims regions) /\
  Forall (fun r => 0 <= x r /\ 0 <= y r /\ y r + height r <= table_height 3) out /\
  pairwise_disjoint out.
Proof.
  cbv zeta. apply layouts_valid.
  - repeat constructor; cbn; lia.
  - right. reflexivity.
Defined.

(** ** The occupied width *)

(** [get_advice_loop] returns the maximum of its start value and of the
    right edges [x + width]: an upper bound that is attained. *)
Lemma get_advice_loop_upper (regions : list Region) (advice : Z) :
  advice <= get_advice_loop advice regions /\
  Forall (fun r => x r + width r <= get_advice_loop advice regions) regions.
Proof.
  revert advice. induction regions as [| r l IH]; intros advice; cbn.
  - split; [lia | constructor].
  - destruct (IH (if advice <? x r + width r then x r + width r else advice))
      as [H1 H2].
    destruct (advice <? x r + width r) eqn:E;
      [apply Z.ltb_lt in E | apply Z.ltb_ge in E];
      (split; [lia | constructor; [lia | exact H2]]).
Qed.

Lemma get_advice_loop_attained (regions : list Region) (advice : Z) :
  get_advice_loop advice regions = advice \/
  exists r, In r regions /\ get_advice_loop advice regions = x r + width r.
Proof.
  revert advice. induction regions as [| r l IH]; intros advice; cbn.
  - now left.
  - destruct (advice <? x r + width r) eqn:E.
    + destruct (IH (x r + width r)) as [H | (r' & Hin & H)].
      * right. exists r. auto.
      * right. exists r'. auto.
    + destruct (IH advice) as [H | (r' & Hin & H)].
      * now left.
      * right. exists r'. auto.
Qed.

Lemma get_advice_loop_le (regions : list Region) (advice bound : Z) :
  advice <= bound ->
  Forall (fun r => x r + width r <= bound) regions ->
  get_advice_loop advice regions <= bound.
Proof.
  intros Ha Hb.
  destruct (get_advice_loop_attained regions advice) as [-> | (r & Hin & ->)].
  - exact Ha.
  - rewrite Forall_forall in Hb. now apply Hb.
Qed.

Lemma total_width_cons (r : Region) (l : list Region) :
  total_width (r :: l) = width r + total_width l.
Proof. reflexivity. Qed.

Lemma total_width_nonneg (l : list Region) :
  Forall (fun r => 0 <= width r) l -> 0 <= total_width l.
Proof.
  induction 1 as [| r l Hr Hl IH];
    [unfold total_width; cbn | rewrite total_width_cons]; lia.
Qed.

Lemma total_width_perm (l l' : list Region) :
  Permutation l l' -> total_width l = total_width l'.
Proof.
  induction 1; rewrite ?total_width_cons; lia.
Qed.

(** [solve_v1] lays the regions side by side: the occupied width reaches
    the sum of the widths. *)
Lemma solve_v1_loop_advice (regions : list Region) (cur_width advice : Z) :
  cur_width <= advice ->
  cur_width + total_width regions <=
    get_advice_loop advice (solve_v1_loop cur_width regions).
Proof.
  revert cur_width advice.
  induction regions as [| r l IH]; intros cur_width advice Hle.
  - unfold total_width. cbn. lia.
  - rewrite total_width_cons, Z.add_assoc. cbn. apply IH.
    destruct (advice <? cur_width + width r) eqn:E;
      [apply Z.ltb_lt in E | apply Z.ltb_ge in E]; lia.
Qed.

(** [solve_v3] never goes right of the sum of the widths. *)
Lemma solve_v3_loop_right_edge (n : Z) (regions : list Region) :
  Forall (fun r => 0 <= width r) regions ->
  forall (position : Point) (cur_width : Z),
    0 <= cur_width ->
    Forall (fun r => x r + width r <= px position + cur_width + total_width regions)
           (solve_v3_loop n position cur_width regions).
Proof.
  induction 1 as [| region rest Hw Hrest IH]; intros position cur_width Hc.
  - constructor.
  - pose proof (total_width_nonneg rest Hrest) as Hn.
    rewrite total_width_cons. cbn [solve_v3_loop].
    unfold solve_v3_step.
    destruct (py position + height region <? n).
    + constructor; [cbn; lia |].
      destruct (cur_width <? width region) eqn:E;
        [apply Z.ltb_lt in E | apply Z.ltb_ge in E].
      * eapply Forall_impl; [| apply IH; lia]. cbn. intros r. lia.
      * eapply Forall_impl; [| apply IH; lia]. cbn. intros r. lia.
    + constructor; [cbn; lia |].
      eapply Forall_impl; [| apply IH; lia]. cbn. intros r. lia.
Qed.

(** Width monotonicity for regions of non-negative width, whatever the
    heights. *)
Lemma shelf_width_le_naive (k : nat) (regions : list Region) :
  Forall (fun r => 0 <= width r) regions ->
  get_advice (snd (solve_v3 k regions)) <= total_width regions /\
  total_width regions <= get_advice (snd (solve_v1 k regions)).
Proof.
  intros Hw. split.
  - unfold solve_v3, get_advice. rewrite snd_checked.
    set (srt := sorted (fun r => - height r) regions).
    assert (Hperm : Permutation srt regions) by apply sorted_perm.
    assert (Hw' : Forall (fun r => 0 <= width r) srt)
      by (eapply Permutation_Forall; [symmetry; exact Hperm | exact Hw]).
    apply get_advice_loop_le.
    + now apply total_width_nonneg.
    + pose proof (solve_v3_loop_right_edge (table_height k) srt Hw'
                    (mkPoint 0 0) 0 (Z.le_refl 0)) as H.
      cbn in H. now rewrite (total_width_perm _ _ Hperm) in H.
  - unfold solve_v1, get_advice. rewrite snd_checked.
    apply (solve_v1_loop_advice regions 0 0). lia.
Qed.

(** C5: for every region sequence (regions have positive widths) whose
    heights are all at most the table height [2^k], the occupied width
    [get_advice] of the result of [solve_v3] is at most the occupied width
    of the result of [solve_v1] on the same input. *)
Theorem width_monotonicity (k : nat) (regions : list Region) :
  Forall (fun r => 0 < width r /\ height r <= table_height k) regions ->
  get_advice (snd (solve_v3 k regions)) <= get_advice (snd (solve_v1 k regions)).
Proof.
  intros Hwf.
  destruct (shelf_width_le_naive k regions) as [H3 H1].
  - eapply Forall_impl; [| exact Hwf]. cbn. lia.
  - lia.
Qed.

Lemma width_monotonicity_witness :
  get_advice (snd (solve_v3 3 [new_region (Some "A") 2 3; new_region (Some "B") 2 3;
                               new_region (Some "C") 1 2])) <=
  get_advice (snd (solve_v1 3 [new_region (Some "A") 2 3; new_region (Some "B") 2 3;
                               new_region (Some "C") 1 2])).
Proof.
  apply width_monotonicity.
  repeat constructor; cbn; lia.
Defined.

(** ** The usage estimate *)

Lemma used_cells_total (regions : list Region) (acc : Z) :
  fold_left (fun used_cells region => used_cells + width region * height region)
            regions acc = acc + total_cells regions.
Proof.
  revert acc. unfold total_cells.
  induction regions as [| r l IH]; intros acc; cbn.
  - lia.
  - rewrite IH. lia.
Qed.

Lemma cell_usage_eq (k : nat) (regions : list Region) :
  cell_usage k regions =
  (get_advice regions * table_height k, total_cells regions).
Proof.
  unfold cell_usage. now rewrite used_cells_total.
Qed.


(** The quotient in use: it rounds to 0.0 when it is too small for a float
    (one cell in a table of height [2^1100]) and overflows when it is too
    large (a region of [10^400] rows in a table of area 1). *)
Lemma utilization_rounds :
  utilization 1100 [mkRegion (Some "a") 1 1 0 0] = inr zero /\
  utilization 0 [mkRegion (Some "a") 1 (10 ^ 400) 0 0] = inl OverflowError /\
  utilization 3 [mkRegion (Some "a") 1 1 0 0] = inr 0.125%float.
Proof.
  repeat split; vm_compute; reflexivity.
Qed.




(** ** The validator reports the first violation *)

Lemma find_first {A : Type} (p : A -> bool) (l : list A) :
  match find p l with
  | Some a =>
      exists pre post, l = (pre ++ a :: post)%list /\
                       Forall (fun b => p b = false) pre /\ p a = true
  | None => Forall (fun b => p b = false) l
  end.
Proof.
  induction l as [| b l IH]; cbn.
  - constructor.
  - destruct (p b) eqn:E.
    + exists [], l. repeat split; [constructor | exact E].
    + destruct (find p l) as [a |].
      * destruct IH as (pre & post & -> & Hpre & Ha).
        exists (b :: pre), post. repeat split; [constructor |]; assumption.
      * now constructor.
Qed.

(** The pair that [first_overlap] returns is the first, in the order of the
    two nested loops, for which [overlap] holds. *)
Lemma first_overlap_first (regions : list Region) :
  match first_overlap regions with
  | Some (ri, rj) =>
      exists pre mid post,
        regions = (pre ++ ri :: mid ++ rj :: post)%list /\
        overlap ri rj = true /\
        Forall (fun b => overlap ri b = false) mid /\
        (forall p1 a p2, pre = (p1 ++ a :: p2)%list ->
           Forall (fun b => overlap a b = false)
                  (p2 ++ ri :: mid ++ rj :: post)%list)
  | None => ForallOrdPairs (fun a b => overlap a b = false) regions
  end.
Proof.
  induction regions as [| r l IH]; cbn.
  - constructor.
  - unfold first_overlapped.
    pose proof (find_first (overlap r) l) as Hf.
    destruct (find (overlap r) l) as [rj |].
    + destruct Hf as (mid & post & -> & Hmid & Hj).
      exists [], mid, post. repeat split; try assumption.
      intros [| ? ?] a p2 H; discriminate.
    + destruct (first_overlap l) as [[ri rj] |].
      * destruct IH as (pre & mid & post & -> & Hij & Hmid & Hpre).
        exists (r :: pre), mid, post. repeat split; try assumption.
        intros [| b p1] a p2 H; injection H as -> ->.
        -- exact Hf.
        -- now apply (Hpre p1).
      * now constructor.
Qed.

(** C3 (counterexample): with table height 1 both regions break the height
    bound, but the validator stops at the first: the second violation is
    not among the diagnostics. *)
Lemma second_violation_unreported :
  let a := mkRegion (Some "a") 1 2 0 0 in
  let b := mkRegion (Some "b") 1 3 1 0 in
  over_height (table_height 0) a = true /\
  over_height (table_height 0) b = true /\
  check_valid 0 [a; b] = ([OverHeight a], false) /\
  ~ In (OverHeight b) (fst (check_valid 0 [a; b])).
Proof.
  cbv zeta. repeat split; try reflexivity.
  cbn. intros [H | []]. discriminate.
Qed.

(** C3 (amended): the validator is a total, never-fatal reporting
    operation: on any region set it returns a verdict together with at most
    one diagnostic, that of the first violation found.  Either no region
    breaks the height bound and no pair [i < j] satisfies [overlap]: the
    verdict is [True] with no diagnostic; or the first region breaking the
    height bound is reported; or no region breaks the height bound and the
    first pair [i < j] (in the order of the nested loops) that satisfies
    [overlap] is reported; in both latter cases the verdict is [False]. *)
Theorem check_valid_first_violation (k : nat) (regions : list Region) :
  let n := table_height k in
  (check_valid k regions = ([], true) /\
   Forall (fun r => y r + height r <= n) regions /\
   ForallOrdPairs (fun ri rj => overlap ri rj = false) regions)
  \/
  (exists pre r post,
     check_valid k regions = ([OverHeight r], false) /\
     regions = (pre ++ r :: post)%list /\
     Forall (fun r' => y r' + height r' <= n) pre /\
     n < y r + height r)
  \/
  (exists pre ri mid rj post,
     check_valid k regions = ([Overlapping ri rj], false) /\
     Forall (fun r => y r + height r <= n) regions /\
     regions = (pre ++ ri :: mid ++ rj :: post)%list /\
     overlap ri rj = true /\
     Forall (fun b => overlap ri b = false) mid /\
     (forall p1 a p2, pre = (p1 ++ a :: p2)%list ->
        Forall (fun b => overlap a b = false)
               (p2 ++ ri :: mid ++ rj :: post)%list)).
Proof.
  cbv zeta. unfold check_valid.
  assert (Hle : forall l, Forall (fun b => over_height (table_height k) b = false) l ->
                          Forall (fun r => y r + height r <= table_height k) l).
  { intros l H. eapply Forall_impl; [| exact H]. cbn. intros r Hr.
    unfold over_height in Hr. apply Z.ltb_ge in Hr. exact Hr. }
  pose proof (find_first (over_height (table_height k)) regions) as Hf.
  destruct (find (over_height (table_height k)) regions) as [r |].
  - right; left. destruct Hf as (pre & post & Heq & Hpre & Hr).
    exists pre, r, post. repeat split; auto.
    unfold over_height in Hr. now apply Z.ltb_lt in Hr.
  - pose proof (first_overlap_first regions) as Ho.
    destruct (first_overlap regions) as [[ri rj] |].
    + right; right. destruct Ho as (pre & mid & post & Heq & Hij & Hmid & Hpre).
      exists pre, ri, mid, rj, post. repeat split; auto.
    + left. repeat split; auto.
Qed.

(** ** The solvers pass their own validation *)

Lemma ordered_pairs_split {A : Type} (R : A -> A -> Prop)
    (pre mid post : list A) (a b : A) :
  ForallOrdPairs R (pre ++ a :: mid ++ b :: post)%list -> R a b.
Proof.
  induction pre as [| c pre IH]; cbn; intros H.
  - inversion H as [| ? ? Ha _]; subst.
    rewrite Forall_forall in Ha. apply Ha.
    apply in_or_app. right. now left.
  - inversion H; subst. now apply IH.
Qed.

Lemma check_valid_accepts (k : nat) (l : list Region) :
  Forall (fun r => 0 < width r /\ 0 < height r) l ->
  Forall (fun r => y r + height r <= table_height k) l ->
  ForallOrdPairs (fun r1 r2 => ~ intersects r1 r2) l ->
  check_valid k l = ([], true).
Proof.
  intros Hpos Hh Hd. unfold check_valid.
  pose proof (find_first (over_height (table_height k)) l) as Hf.
  destruct (find (over_height (table_height k)) l) as [r |].
  - destruct Hf as (pre & post & -> & _ & Hr).
    apply Forall_app in Hh. destruct Hh as [_ Hh].
    inversion Hh as [| ? ? Hle _]; subst.
    unfold over_height in Hr. apply Z.ltb_lt in Hr. lia.
  - pose proof (first_overlap_first l) as Ho.
    destruct (first_overlap l) as [[ri rj] |]; [| reflexivity].
    destruct Ho as (pre & mid & post & -> & Hij & _).
    exfalso. apply (ordered_pairs_split _ _ _ _ _ _ Hd).
    apply overlap_intersects; [| | exact Hij];
      rewrite Forall_forall in Hpos;
      apply (Hpos rj); apply in_or_app; right; right;
      apply in_or_app; right; now left.
Qed.

(** On regions of positive sizes that fit the table height, neither solver
    prints anything: [check_valid] accepts both layouts. *)
Lemma solvers_pass_validation (k : nat) (regions : list Region) :
  Forall (fun r => 0 < width r /\ 0 < height r <= table_height k) regions ->
  fst (solve_v1 k regions) = [] /\ fst (solve_v3 k regions) = [].
Proof.
  intros Hwf.
  assert (Hpos : forall out, map dims out = map dims regions \/
                             Permutation (map dims out) (map dims regions) ->
                 Forall (fun r => 0 < width r /\ 0 < height r <= table_height k) out).
  { intros out Hout.
    apply (Forall_dims (fun d => 0 < snd (fst d) /\ 0 < snd d <= table_height k) regions).
    - destruct Hout as [-> | Hp]; [reflexivity | exact Hp].
    - exact Hwf. }
  split.
  - unfold solve_v1, checked.
    destruct (solve_v1_loop_inv regions) with (cur_width := 0) as [Ha Hp].
    { eapply Forall_impl; [| exact Hwf]. cbn. lia. }
    specialize (Hpos (solve_v1_loop 0 regions)
                  (or_introl (solve_v1_loop_dims 0 regions))).
    rewrite check_valid_accepts; [reflexivity | | | exact Hp].
    + eapply Forall_impl; [| exact Hpos]. cbn. lia.
    + rewrite Forall_forall in *. intros r Hr.
      specialize (Ha r Hr). specialize (Hpos r Hr). lia.
  - unfold solve_v3, checked.
    set (srt := sorted (fun r => - height r) regions).
    assert (Hperm : Permutation srt regions) by apply sorted_perm.
    assert (Hwf' : Forall (fun r => 0 <= width r /\ 0 <= height r <= table_height k) srt).
    { eapply Permutation_Forall; [symmetry; exact Hperm |].
      eapply Forall_impl; [| exact Hwf]. cbn. lia. }
    destruct (solve_v3_loop_inv (table_height k) srt Hwf' (mkPoint 0 0) 0)
      as [Ha Hp]; cbn; try lia.
    assert (Hp3 : Forall (fun r => 0 < width r /\ 0 < height r <= table_height k)
                    (solve_v3_loop (table_height k) (mkPoint 0 0) 0 srt)).
    { apply Hpos. right. rewrite solve_v3_loop_dims. now apply Permutation_map. }
    rewrite check_valid_accepts; [reflexivity | | | exact Hp].
    + eapply Forall_impl; [| exact Hp3]. cbn. lia.
    + eapply Forall_impl; [| exact Ha]. cbn. lia.
Qed.

(** ** The region catalog *)

Lemma int_of_float_finite (f : float) :
  is_finite f = true -> int_of_float f = inr (trunc_float f).
Proof.
  unfold is_finite, int_of_float.
  destruct (is_nan f), (is_infinity f); cbn; intros H;
    try discriminate H; reflexivity.
Qed.

(** C9 (counterexample): the pair [(None, "block")] has a defined ratio,
    [0], and a minimum-row floor, 264, yet the loop body skips it and the
    catalog holds no region for it. *)
Lemma zero_ratio_pair_skipped :
  In (None, Some "block") circuits_tables /\
  lookup rows_per_gas "block" = Some (RInt 0) /\
  lookup min_rows "block" = Some 264 /\
  get_regions_body 741534 None (Some "block") = inr None /\
  exists regions,
    get_regions 741534 = inr regions /\ List.length regions = 9%nat /\
    ~ In (new_region None 2 264) regions.
Proof.
  split; [cbn; tauto |]. repeat split.
  eexists. split; [vm_compute; reflexivity |]. split; [reflexivity |].
  cbn. intros H. repeat (destruct H as [H | H]; [discriminate H |]). exact H.
Qed.

(** C9 (amended): for every gas budget in range (its products with the
    ratios are finite floats), [get_regions] returns the catalog: a pair
    whose name has no defined ratio, or the ratio 0, is skipped and produces
    no region; every other pair produces a region named after the circuit,
    whose row count is the integer part of gas times the ratio, clamped
    upward to the minimum-row floor of the name when one is defined, and
    whose width is the sum of the advice-column counts of the circuit and of
    the paired table (an absent one contributes zero); the regions are in
    the order of the configuration. *)
Theorem get_regions_catalog (gas : float) :
  finite_rows gas = true ->
  get_regions gas = inr (catalog gas).
Proof.
  intros H. cbn in H.
  repeat (apply andb_true_iff in H; destruct H as [?Hfin H]).
  unfold get_regions, circuits_tables.
  cbn. rewrite !int_of_float_finite by assumption.
  reflexivity.
Qed.

Lemma get_regions_catalog_witness :
  get_regions 741534 = inr (catalog 741534).
Proof.
  apply get_regions_catalog. vm_compute. reflexivity.
Defined.

(** Every region of the result was appended by the loop body for a pair of
    the configuration. *)
Lemma get_regions_loop_origin (gas : float)
    (pairs : list (option string * option string)) :
  forall regions,
    get_regions_loop gas pairs = inr regions ->
    Forall (fun r => exists c t, In (c, t) pairs /\
                                 get_regions_body gas c t = inr (Some r)) regions.
Proof.
  induction pairs as [| [c t] rest IH]; cbn; intros regions H.
  - injection H as <-. constructor.
  - destruct (get_regions_body gas c t) as [e | o] eqn:Hb; cbn in H; [discriminate |].
    destruct (get_regions_loop gas rest) as [e | regions'] eqn:Hl; cbn in H;
      [discriminate |].
    injection H as <-.
    assert (Hrest : Forall (fun r => exists c0 t0, In (c0, t0) ((c, t) :: rest) /\
                              get_regions_body gas c0 t0 = inr (Some r)) regions').
    { eapply Forall_impl; [| apply IH; reflexivity].
      cbn. intros r (c0 & t0 & Hin & Hr). exists c0, t0. auto. }
    destruct o as [r |]; [constructor |]; try exact Hrest.
    exists c, t. cbn. auto.
Qed.

(** The names of the configuration whose ratio is the integer 0. *)
Lemma ratio_is_zero_iff (s : string) :
  lookup rows_per_gas s = Some (RInt 0) <->
  In s ["block"; "u8"; "u10"; "u16"].
Proof.
  split.
  - unfold rows_per_gas. cbn [lookup].
    repeat match goal with
           | |- (if String.eqb ?a s then _ else _) = _ -> _ =>
               destruct (String.eqb_spec a s) as [<- | _];
               [try discriminate; intros _; cbn; tauto |]
           end.
    discriminate.
  - cbn. intros [<- | [<- | [<- | [<- | []]]]]; reflexivity.
Qed.

(** C10: [get_regions] skips every configured pair whose name has the ratio
    0 (block, u8, u10, u16), as it skips those whose ratio is [None], so
    their minimum-row floors are never applied; and, for every gas budget,
    every region of the result comes from a pair of the configuration whose
    circuit is not [None] and whose ratio is a strictly positive float. *)
Theorem zero_ratio_names_skipped (gas : float) (regions : list Region) :
  get_regions gas = inr regions ->
  (forall c t s,
      In (c, t) circuits_tables -> pair_name (c, t) = Some s ->
      lookup rows_per_gas s = Some (RInt 0) \/ lookup rows_per_gas s = Some RNone ->
      get_regions_body gas c t = inr None) /\
  (forall s, In s ["block"; "u8"; "u10"; "u16"] ->
      lookup rows_per_gas s = Some (RInt 0) /\
      In (None, Some s) circuits_tables /\
      (exists floor, lookup min_rows s = Some floor) /\
      forall r, In r regions -> name r <> Some s /\ name r <> None) /\
  Forall (fun r => exists c t f,
              In (Some c, t) circuits_tables /\ name r = Some c /\
              lookup rows_per_gas c = Some (RFloat f) /\
              PrimFloat.ltb 0 f = true) regions.
Proof.
  intros Hget.
  assert (Horigin : Forall (fun r => exists c t f,
              In (Some c, t) circuits_tables /\ name r = Some c /\
              lookup rows_per_gas c = Some (RFloat f) /\
              PrimFloat.ltb 0 f = true) regions).
  { apply get_regions_loop_origin in Hget.
    eapply Forall_impl; [| exact Hget]. cbn beta.
    intros r (c & t & Hin & Hbody).
    unfold circuits_tables in Hin. cbn [In] in Hin.
    repeat (destruct Hin as [Hin | Hin];
            [injection Hin as <- <-; cbn in Hbody;
             try discriminate Hbody;
             match type of Hbody with
             | context [int_of_float ?p] =>
                 destruct (int_of_float p); cbn in Hbody;
                 [discriminate Hbody | injection Hbody as <-]
             end;
             do 3 eexists; cbn;
             (split; [| split; [reflexivity | split; reflexivity]]);
             tauto
            |]).
    destruct Hin. }
  split; [| split; [| exact Horigin]].
  - intros c t s Hin Hname Hratio.
    unfold circuits_tables in Hin. cbn [In] in Hin.
    repeat (destruct Hin as [Hin | Hin];
            [injection Hin as <- <-; cbn in Hname; injection Hname as <-;
             cbn in Hratio; try reflexivity;
             destruct Hratio as [Hr | Hr]; discriminate Hr
            |]).
    destruct Hin.
  - intros s Hs.
    assert (Hz : lookup rows_per_gas s = Some (RInt 0)) by now apply ratio_is_zero_iff.
    split; [exact Hz |]. split; [| split].
    + cbn in Hs. cbn.
      destruct Hs as [<- | [<- | [<- | [<- | []]]]]; tauto.
    + cbn in Hs.
      destruct Hs as [<- | [<- | [<- | [<- | []]]]]; eexists; reflexivity.
    + intros r Hr. rewrite Forall_forall in Horigin.
      destruct (Horigin r Hr) as (c & t & f & _ & Hn & Hf & _).
      rewrite Hn. split; [| discriminate].
      intros [= ->]. congruence.
Qed.

Lemma zero_ratio_names_skipped_witness :
  Forall (fun r => exists c t f,
              In (Some c, t) circuits_tables /\ name r = Some c /\
              lookup rows_per_gas c = Some (RFloat f) /\
              PrimFloat.ltb 0 f = true) (catalog 741534).
Proof.
  apply (zero_ratio_names_skipped 741534 (catalog 741534)).
  vm_compute. reflexivity.
Defined.

(** * Further properties *)

(** ** NaiveLayout in closed form *)

Lemma solve_v1_loop_nth (regions : list Region) (cur_width : Z) (i : nat) :
  nth_error (solve_v1_loop cur_width regions) i =
  option_map (fun r => place r (cur_width + total_width (firstn i regions)) 0)
             (nth_error regions i).
Proof.
  revert cur_width i.
  induction regions as [| r l IH]; intros cur_width [| i]; cbn;
    try reflexivity.
  - unfold total_width. cbn. now rewrite Z.add_0_r.
  - rewrite IH, total_width_cons. now rewrite Z.add_assoc.
Qed.

(** X1: [solve_v1] places region [i] of its input on row 0, at the column
    that is the sum of the widths of the regions before it, whatever the
    sizes and the table height. *)
Theorem solve_v1_positions (k : nat) (regions : list Region) (i : nat) :
  nth_error (snd (solve_v1 k regions)) i =
  option_map (fun r => place r (total_width (firstn i regions)) 0)
             (nth_error regions i).
Proof.
  unfold solve_v1. rewrite snd_checked.
  apply (solve_v1_loop_nth regions 0 i).
Qed.

Lemma solve_v1_loop_right_edge (regions : list Region) :
  Forall (fun r => 0 <= width r) regions ->
  forall cur_width : Z,
    Forall (fun r => x r + width r <= cur_width + total_width regions)
           (solve_v1_loop cur_width regions).
Proof.
  induction 1 as [| r l Hr Hl IH]; intros cur_width.
  - constructor.
  - pose proof (total_width_nonneg l Hl) as Hn.
    rewrite total_width_cons. cbn [solve_v1_loop]. constructor.
    + cbn. lia.
    + eapply Forall_impl; [| apply (IH (cur_width + width r))]. cbn. lia.
Qed.

(** X2: when no width is negative, the occupied width of the layout of
    [solve_v1] is exactly the sum of the widths. *)
Theorem naive_width_is_total (k : nat) (regions : list Region) :
  Forall (fun r => 0 <= width r) regions ->
  get_advice (snd (solve_v1 k regions)) = total_width regions.
Proof.
  intros Hw. apply Z.le_antisymm.
  - unfold solve_v1, get_advice. rewrite snd_checked.
    apply get_advice_loop_le.
    + now apply total_width_nonneg.
    + apply (solve_v1_loop_right_edge regions Hw 0).
  - now apply shelf_width_le_naive.
Qed.

Lemma naive_width_is_total_witness :
  get_advice (snd (solve_v1 3 [new_region (Some "A") 2 3; new_region (Some "B") 2 9]))
  = total_width [new_region (Some "A") 2 3; new_region (Some "B") 2 9].
Proof.
  apply naive_width_is_total. repeat constructor; cbn; lia.
Defined.

(** ** The occupied width as a maximum *)

Lemma advice_step_max (advice max_col : Z) :
  (if advice <? max_col then max_col else advice) = Z.max advice max_col.
Proof.
  destruct (advice <? max_col) eqn:E;
    [apply Z.ltb_lt in E | apply Z.ltb_ge in E]; lia.
Qed.

Lemma get_advice_loop_max (regions : list Region) (a b : Z) :
  b <= a ->
  get_advice_loop a regions = Z.max a (get_advice_loop b regions).
Proof.
  revert a b. induction regions as [| r l IH]; intros a b Hle; cbn.
  - lia.
  - rewrite !advice_step_max.
    rewrite (IH (Z.max a (x r + width r)) (Z.max b (x r + width r))) by lia.
    pose proof (get_advice_loop_upper l (Z.max b (x r + width r))) as [Hu _].
    lia.
Qed.

Lemma get_advice_loop_app (l1 l2 : list Region) (a : Z) :
  get_advice_loop a (l1 ++ l2) = get_advice_loop (get_advice_loop a l1) l2.
Proof.
  revert a. induction l1 as [| r l IH]; intros a; cbn; [reflexivity | apply IH].
Qed.

Lemma get_advice_loop_perm (l l' : list Region) :
  Permutation l l' -> forall a, get_advice_loop a l = get_advice_loop a l'.
Proof.
  induction 1 as [| r l l' _ IH | r r' l | l l' l'' _ IH1 _ IH2]; intros a; cbn.
  - reflexivity.
  - apply IH.
  - rewrite !advice_step_max. f_equal. lia.
  - now rewrite IH1.
Qed.

(** X3: [get_advice] is never negative, does not depend on the order of
    the regions, and on a concatenation it is the larger of the two
    results. *)
Theorem get_advice_algebra (l1 l2 : list Region) :
  0 <= get_advice l1 /\
  get_advice (l1 ++ l2) = Z.max (get_advice l1) (get_advice l2) /\
  (forall l, Permutation l1 l -> get_advice l = get_advice l1).
Proof.
  unfold get_advice. split; [| split].
  - apply get_advice_loop_upper.
  - rewrite get_advice_loop_app. apply get_advice_loop_max.
    apply get_advice_loop_upper.
  - intros l Hp. symmetry. now apply get_advice_loop_perm.
Qed.

(** ** The solvers depend on names and sizes only *)

Lemma dims_inj_place (r r' : Region) (a b : Z) :
  dims r = dims r' -> place r a b = place r' a b.
Proof.
  unfold dims, place. intros H. injection H as -> -> ->. reflexivity.
Qed.

Lemma map_dims_cons (r r' : Region) (l l' : list Region) :
  map dims (r :: l) = map dims (r' :: l') ->
  dims r = dims r' /\ map dims l = map dims l'.
Proof.
  intros H. split.
  - exact (f_equal (fun m => hd (dims r) m) H).
  - exact (f_equal (fun m => tl m) H).
Qed.

Lemma solve_v1_loop_ext (l l' : list Region) :
  map dims l = map dims l' ->
  forall cur_width, solve_v1_loop cur_width l = solve_v1_loop cur_width l'.
Proof.
  revert l'. induction l as [| r l IH]; intros [| r' l'] H cur_width;
    try discriminate H; [reflexivity |].
  apply map_dims_cons in H. destruct H as [Hd Hl]. cbn.
  rewrite (dims_inj_place r r' _ _ Hd).
  assert (Hw : width r = width r') by (unfold dims in Hd; congruence).
  rewrite Hw. f_equal. now apply IH.
Qed.

Lemma solve_v3_loop_ext (n : Z) (l l' : list Region) :
  map dims l = map dims l' ->
  forall position cur_width,
    solve_v3_loop n position cur_width l = solve_v3_loop n position cur_width l'.
Proof.
  revert l'. induction l as [| r l IH]; intros [| r' l'] H position cur_width;
    try discriminate H; [reflexivity |].
  apply map_dims_cons in H. destruct H as [Hd Hl]. cbn. unfold solve_v3_step.
  assert (Hw : width r = width r') by (unfold dims in Hd; congruence).
  assert (Hh : height r = height r') by (unfold dims in Hd; congruence).
  rewrite Hw, Hh.
  destruct (py position + height r' <? n);
    rewrite (dims_inj_place r r' _ _ Hd); f_equal; now apply IH.
Qed.

Lemma sorted_map {A B : Type} (f : A -> B) (key : A -> Z) (key' : B -> Z)
    (l : list A) :
  (forall a, key a = key' (f a)) ->
  map f (sorted key l) = sorted key' (map f l).
Proof.
  intros Hk.
  assert (Hi : forall a l0, map f (insert_by key a l0) =
                            insert_by key' (f a) (map f l0)).
  { intros a l0. induction l0 as [| b l0 IH]; cbn; [reflexivity |].
    rewrite <- !Hk. destruct (key a <=? key b); cbn; [reflexivity |].
    now rewrite IH. }
  induction l as [| a l IH]; cbn; [reflexivity |].
  now rewrite Hi, IH.
Qed.


Lemma sorted_dims (l : list Region) :
  map dims (sorted (fun r => - height r) l) =
  sorted (fun d => - snd d) (map dims l).
Proof. now apply sorted_map. Qed.

(** X4: both solvers overwrite the coordinates: two inputs with the same
    names, widths and heights, whatever their [x] and [y], get the same
    layout. *)
Theorem solvers_ignore_coordinates (k : nat) (regions regions' : list Region) :
  map dims regions = map dims regions' ->
  snd (solve_v1 k regions) = snd (solve_v1 k regions') /\
  snd (solve_v3 k regions) = snd (solve_v3 k regions').
Proof.
  intros H. unfold solve_v1, solve_v3. rewrite !snd_checked. split.
  - now apply solve_v1_loop_ext.
  - apply solve_v3_loop_ext. now rewrite !sorted_dims, H.
Qed.

Lemma solvers_ignore_coordinates_witness :
  snd (solve_v1 3 [mkRegion (Some "A") 2 3 7 7; mkRegion (Some "B") 1 6 0 5]) =
  snd (solve_v1 3 [new_region (Some "A") 2 3; new_region (Some "B") 1 6]) /\
  snd (solve_v3 3 [mkRegion (Some "A") 2 3 7 7; mkRegion (Some "B") 1 6 0 5]) =
  snd (solve_v3 3 [new_region (Some "A") 2 3; new_region (Some "B") 1 6]).
Proof.
  apply solvers_ignore_coordinates. reflexivity.
Defined.


(** ** Shapes of the shelf layout *)

Lemma total_height_cons (r : Region) (l : list Region) :
  total_height (r :: l) = height r + total_height l.
Proof. reflexivity. Qed.

Lemma total_height_nonneg (l : list Region) :
  Forall (fun r => 0 <= height r) l -> 0 <= total_height l.
Proof.
  induction 1 as [| r l Hr Hl IH];
    [unfold total_height; cbn | rewrite total_height_cons]; lia.
Qed.

Lemma total_height_perm (l l' : list Region) :
  Permutation l l' -> total_height l = total_height l'.
Proof.
  induction 1; rewrite ?total_height_cons; lia.
Qed.

(** While the heights left fit under the cursor, the loop stacks them on
    the current shelf. *)
Lemma solve_v3_loop_stack (n : Z) (regions : list Region) :
  Forall (fun r => 0 <= height r) regions ->
  forall (position : Point) (cur_width : Z) (i : nat),
    py position + total_height regions < n ->
    nth_error (solve_v3_loop n position cur_width regions) i =
    option_map (fun r => place r (px position)
                           (py position + total_height (firstn i regions)))
               (nth_error regions i).
Proof.
  induction 1 as [| r l Hr Hl IH]; intros position cur_width i Hfit.
  - destruct i; reflexivity.
  - pose proof (total_height_nonneg l Hl) as Hn.
    rewrite total_height_cons in Hfit.
    cbn [solve_v3_loop]. unfold solve_v3_step.
    replace (py position + height r <? n) with true
      by (symmetry; apply Z.ltb_lt; lia).
    destruct i as [| i]; cbn [nth_error firstn option_map].
    + unfold total_height. cbn. now rewrite Z.add_0_r.
    + rewrite IH by (cbn; lia). cbn [px py].
      rewrite total_height_cons. now rewrite Z.add_assoc.
Qed.

(** X6: when no height is negative and the heights add up to less than the
    table height, [solve_v3] builds a single shelf: region [i] of the sorted
    input is at column 0, on the row that is the sum of the heights before
    it. *)
Theorem single_shelf (k : nat) (regions : list Region) (i : nat) :
  Forall (fun r => 0 <= height r) regions ->
  total_height regions < table_height k ->
  let by_height := sorted (fun r => - height r) regions in
  nth_error (snd (solve_v3 k regions)) i =
  option_map (fun r => place r 0 (total_height (firstn i by_height)))
             (nth_error by_height i).
Proof.
  intros Hh Hfit. cbv zeta. unfold solve_v3. rewrite snd_checked.
  set (srt := sorted (fun r => - height r) regions).
  assert (Hperm : Permutation srt regions) by apply sorted_perm.
  apply (solve_v3_loop_stack (table_height k) srt).
  - eapply Permutation_Forall; [symmetry; exact Hperm | exact Hh].
  - cbn. now rewrite (total_height_perm _ _ Hperm).
Qed.

Lemma single_shelf_witness :
  nth_error (snd (solve_v3 3 [new_region (Some "A") 2 3; new_region (Some "B") 5 4])) 1 =
  Some (mkRegion (Some "A") 2 3 0 4).
Proof.
  apply (single_shelf 3 [new_region (Some "A") 2 3; new_region (Some "B") 5 4] 1).
  - repeat constructor; cbn; lia.
  - vm_compute. reflexivity.
Defined.

(** With regions at least half the table high the loop never stacks: it
    runs like the loop of [solve_v1]. *)
Lemma solve_v3_loop_no_stack (n : Z) (regions : list Region) :
  Forall (fun r => 0 <= width r /\ n <= 2 * height r) regions ->
  forall (position : Point) (cur_width : Z),
    n <= 2 * py position \/ (py position = 0 /\ cur_width = 0) ->
    solve_v3_loop n position cur_width regions =
    solve_v1_loop (px position + cur_width) regions.
Proof.
  induction 1 as [| r l [Hw Hh] Hl IH]; intros position cur_width Hst.
  - reflexivity.
  - cbn [solve_v3_loop solve_v1_loop]. unfold solve_v3_step.
    destruct (py position + height r <? n) eqn:E.
    + apply Z.ltb_lt in E. destruct Hst as [Hst | [Hy Hc]]; [lia |].
      subst cur_width. rewrite Hy, Z.add_0_r. f_equal.
      rewrite IH by (left; cbn [py]; lia). cbn [px].
      destruct (0 <? width r) eqn:E2;
        [| apply Z.ltb_ge in E2; replace (width r) with 0 by lia];
        reflexivity.
    + cbn [px py]. f_equal. apply IH. left. cbn [py]. lia.
Qed.

(** X7: when no width is negative and every region is at least half the
    table high (in particular when each fills the table exactly),
    [solve_v3] stacks nothing: it lays the sorted regions side by side on
    row 0, as [solve_v1] does with the sorted list. *)
Theorem tall_regions_side_by_side (k : nat) (regions : list Region) :
  Forall (fun r => 0 <= width r /\ table_height k <= 2 * height r) regions ->
  snd (solve_v3 k regions) =
  snd (solve_v1 k (sorted (fun r => - height r) regions)).
Proof.
  intros H. unfold solve_v3, solve_v1. rewrite !snd_checked.
  apply (solve_v3_loop_no_stack (table_height k)).
  - eapply Permutation_Forall; [symmetry; apply sorted_perm | exact H].
  - right. split; reflexivity.
Qed.

Lemma tall_regions_side_by_side_witness :
  snd (solve_v3 3 [new_region (Some "A") 2 4; new_region (Some "B") 1 8]) =
  snd (solve_v1 3 (sorted (fun r => - height r)
                     [new_region (Some "A") 2 4; new_region (Some "B") 1 8])).
Proof.
  apply tall_regions_side_by_side. repeat constructor; cbn; lia.
Defined.

(** ** Utilization of the two layouts *)

Lemma total_cells_cons (r : Region) (l : list Region) :
  total_cells (r :: l) = width r * height r + total_cells l.
Proof. reflexivity. Qed.

Lemma total_cells_dims (l l' : list Region) :
  Permutation (map dims l) (map dims l') -> total_cells l = total_cells l'.
Proof.
  assert (Hs : forall l0, total_cells l0 =
             fold_right Z.add 0 (map (fun d => snd (fst d) * snd d) (map dims l0))).
  { induction l0 as [| r l0 IH]; [reflexivity |].
    rewrite total_cells_cons, IH. reflexivity. }
  intros Hp. rewrite !Hs.
  apply (Permutation_map (fun d => snd (fst d) * snd d)) in Hp.
  induction Hp; cbn; lia.
Qed.

Lemma total_cells_nonneg (l : list Region) :
  Forall (fun r => 0 <= width r /\ 0 <= height r) l -> 0 <= total_cells l.
Proof.
  induction 1 as [| r l [Hw Hh] Hl IH];
    [unfold total_cells; cbn; lia | rewrite total_cells_cons; nia].
Qed.

Lemma total_cells_le_row (n : Z) (l : list Region) :
  Forall (fun r => 0 <= width r /\ height r <= n) l ->
  total_cells l <= total_width l * n.
Proof.
  induction 1 as [| r l [Hw Hh] Hl IH].
  - unfold total_cells, total_width. cbn. lia.
  - rewrite total_cells_cons, total_width_cons. nia.
Qed.

(** The cells placed by the loop of [solve_v3] fit in the columns left of
    the final shelf plus the filled part of that shelf. *)
Lemma solve_v3_loop_cells (n : Z) (regions : list Region) :
  Forall (fun r => 0 <= width r /\ 0 <= height r <= n) regions ->
  forall (position : Point) (cur_width : Z),
    0 <= py position <= n -> 0 <= cur_width ->
    let '(final, final_width) := solve_v3_final n position cur_width regions in
    total_cells (solve_v3_loop n position cur_width regions)
      + px position * n + cur_width * py position
      <= px final * n + final_width * py final /\
    0 <= py final <= n /\ 0 <= final_width.
Proof.
  induction 1 as [| r l (Hw & Hh0 & Hhn) Hl IH]; intros position cur_width Hy Hc.
  - cbn. unfold total_cells. cbn. lia.
  - cbn [solve_v3_final solve_v3_loop]. unfold solve_v3_step.
    destruct (py position + height r <? n) eqn:E;
      [apply Z.ltb_lt in E | apply Z.ltb_ge in E].
    + rewrite advice_step_max.
      specialize (IH (mkPoint (px position) (py position + height r))
                     (Z.max cur_width (width r))).
      destruct (solve_v3_final n _ _ l) as [final fw].
      rewrite total_cells_cons. cbn [px py width height place] in *.
      destruct IH as (IH1 & IH2 & IH3); [lia | lia |].
      split; [| split; assumption]. nia.
    + specialize (IH (mkPoint (px position + cur_width) (height r)) (width r)).
      destruct (solve_v3_final n _ _ l) as [final fw].
      rewrite total_cells_cons. cbn [px py width height place] in *.
      destruct IH as (IH1 & IH2 & IH3); [lia | lia |].
      split; [| split; assumption]. nia.
Qed.

(** The occupied width reaches the right edge of the final shelf. *)
Lemma solve_v3_loop_reach (n : Z) (regions : list Region)
    (position : Point) (cur_width advice : Z) :
  px position + cur_width <= advice ->
  let '(final, final_width) := solve_v3_final n position cur_width regions in
  px final + final_width <=
    get_advice_loop advice (solve_v3_loop n position cur_width regions).
Proof.
  revert position cur_width advice.
  induction regions as [| r l IH]; intros position cur_width advice Hle.
  - cbn. exact Hle.
  - cbn [solve_v3_final solve_v3_loop get_advice_loop]. unfold solve_v3_step.
    destruct (py position + height r <? n).
    + apply (IH (mkPoint (px position) (py position + height r))).
      rewrite !advice_step_max. unfold place. cbn [x width px]. lia.
    + apply (IH (mkPoint (px position + cur_width) (height r))).
      rewrite advice_step_max. unfold place. cbn [x width px]. lia.
Qed.

(** Both layouts hold the cells of the input, inside the area. *)
Lemma layouts_cells (k : nat) (regions : list Region) :
  Forall (fun r => 0 <= width r /\ 0 <= height r <= table_height k) regions ->
  (total_cells (snd (solve_v1 k regions)) = total_cells regions /\
   total_cells regions <= get_advice (snd (solve_v1 k regions)) * table_height k) /\
  (total_cells (snd (solve_v3 k regions)) = total_cells regions /\
   total_cells regions <= get_advice (snd (solve_v3 k regions)) * table_height k).
Proof.
  intros Hwf. pose proof (table_height_pos k) as Hn. split.
  - assert (Hw : Forall (fun r => 0 <= width r) regions)
      by (eapply Forall_impl; [| exact Hwf]; cbn; lia).
    destruct (shelf_width_le_naive k regions Hw) as [_ H1].
    split.
    + apply total_cells_dims. unfold solve_v1. rewrite snd_checked.
      now rewrite solve_v1_loop_dims.
    + etransitivity; [apply (total_cells_le_row (table_height k)) |].
      * eapply Forall_impl; [| exact Hwf]. cbn. lia.
      * nia.
  - set (srt := sorted (fun r => - height r) regions).
    assert (Hperm : Permutation srt regions) by apply sorted_perm.
    assert (Hwf' : Forall (fun r => 0 <= width r /\ 0 <= height r <= table_height k) srt)
      by (eapply Permutation_Forall; [symmetry; exact Hperm | exact Hwf]).
    assert (Hc : total_cells (snd (solve_v3 k regions)) = total_cells regions).
    { apply total_cells_dims. rewrite solve_v3_dims.
      now apply Permutation_map. }
    split; [exact Hc |]. rewrite <- Hc.
    unfold solve_v3, get_advice. rewrite snd_checked. fold srt.
    pose proof (solve_v3_loop_cells (table_height k) srt Hwf' (mkPoint 0 0) 0) as H1.
    pose proof (solve_v3_loop_reach (table_height k) srt (mkPoint 0 0) 0 0) as H2.
    destruct (solve_v3_final (table_height k) (mkPoint 0 0) 0 srt) as [final fw].
    cbn [px py] in H1, H2.
    destruct H1 as (H1 & Hy & Hfw); [lia | lia |].
    specialize (H2 (Z.le_refl _)). nia.
Qed.

Lemma Qdiv_le_cross (u a v b : Z) :
  0 < a -> 0 < b -> u * b <= v * a ->
  (inject_Z u / inject_Z a <= inject_Z v / inject_Z b)%Q.
Proof.
  intros Ha Hb H.
  destruct a as [| a | a]; try lia. destruct b as [| b | b]; try lia.
  unfold Qle, Qdiv, Qmult, Qinv, inject_Z. cbn. lia.
Qed.

Lemma Qdiv_unit (u a : Z) :
  0 < u -> u <= a ->
  (0 < inject_Z u / inject_Z a <= 1)%Q.
Proof.
  intros Hu Ha.
  destruct a as [| a | a]; try lia.
  unfold Qlt, Qle, Qdiv, Qmult, Qinv, inject_Z. cbn. lia.
Qed.

Lemma exact_utilization_eq (k : nat) (l : list Region) :
  0 < get_advice l ->
  exact_utilization k l =
  inr (inject_Z (total_cells l) / inject_Z (get_advice l * table_height k))%Q.
Proof.
  intros Hpos. pose proof (table_height_pos k) as Hn.
  unfold exact_utilization. rewrite cell_usage_eq.
  destruct (get_advice l * table_height k =? 0) eqn:E; [| reflexivity].
  apply Z.eqb_eq in E. nia.
Qed.

(** *** The float quotient of a part by the whole is defined *)

Lemma fexp_eq (v : Z) : fexp prec emax v = Z.max (v - 53) (-1074).
Proof. reflexivity. Qed.

Lemma digits2_pos_bounds (p : positive) :
  2 ^ (Z.pos (digits2_pos p) - 1) <= Z.pos p < 2 ^ Z.pos (digits2_pos p).
Proof.
  induction p as [p IH | p IH |]; cbn [digits2_pos].
  - rewrite Pos2Z.inj_succ.
    replace (Z.succ (Z.pos (digits2_pos p)) - 1)
      with (Z.succ (Z.pos (digits2_pos p) - 1)) by lia.
    rewrite !Z.pow_succ_r by lia. lia.
  - rewrite Pos2Z.inj_succ.
    replace (Z.succ (Z.pos (digits2_pos p)) - 1)
      with (Z.succ (Z.pos (digits2_pos p) - 1)) by lia.
    rewrite !Z.pow_succ_r by lia. lia.
  - cbn. lia.
Qed.

Lemma Zdigits2_nonneg (m : Z) : 0 <= Zdigits2 m.
Proof. destruct m; cbn; lia. Qed.

Lemma Zdigits2_upper (m : Z) : 0 <= m -> m < 2 ^ Zdigits2 m.
Proof.
  intros H. destruct m as [| p | p]; cbn; try lia.
  apply digits2_pos_bounds.
Qed.

Lemma Zdigits2_le (m n : Z) : 0 <= m < 2 ^ n -> 0 <= n -> Zdigits2 m <= n.
Proof.
  intros [H0 Hm] Hn. destruct m as [| p | p]; cbn; try lia.
  destruct (digits2_pos_bounds p) as [Hlo _].
  destruct (Z_le_gt_dec (Z.pos (digits2_pos p)) n) as [H | H];
    [exact H | exfalso].
  assert (2 ^ n <= 2 ^ (Z.pos (digits2_pos p) - 1))
    by (apply Z.pow_le_mono_r; lia).
  lia.
Qed.

Lemma Zdigits2_succ (m m' : Z) :
  0 <= m' <= m + 1 -> 0 <= m -> Zdigits2 m' <= Zdigits2 m + 1.
Proof.
  intros H Hm. pose proof (Zdigits2_nonneg m) as Hd.
  apply Zdigits2_le; [| lia].
  pose proof (Zdigits2_upper m Hm). rewrite Z.pow_add_r by lia. lia.
Qed.

Lemma shr_1_bounds (mrs : shr_record) :
  0 <= shr_m mrs -> 0 <= shr_m (shr_1 mrs) <= shr_m mrs.
Proof.
  destruct mrs as [m r s]. cbn [shr_m]. intros H.
  destruct m as [| [p | p |] | p]; cbn; lia.
Qed.

Lemma iter_shr_1_bounds (M : Z) (p : positive) (mrs : shr_record) :
  0 <= shr_m mrs <= M -> 0 <= shr_m (iter_pos shr_1 p mrs) <= M.
Proof.
  revert mrs. induction p as [p IH | p IH |]; intros mrs H; cbn [iter_pos].
  - apply IH, IH. pose proof (shr_1_bounds mrs). lia.
  - apply IH, IH. exact H.
  - pose proof (shr_1_bounds mrs). lia.
Qed.

Lemma shr_record_of_loc_m (m : Z) (l : location) :
  shr_m (shr_record_of_loc m l) = m.
Proof. destruct l as [| []]; reflexivity. Qed.

Lemma round_nearest_even_bounds (m : Z) (l : location) :
  m <= round_nearest_even m l <= m + 1.
Proof.
  destruct l as [| []]; cbn; try lia. destruct (Z.even m); lia.
Qed.

(** The shift to the exponent of the format: the mantissa does not grow and
    the exponent is the larger of the given one and the format's. *)
Lemma shr_fexp_bounds (m e : Z) (l : location) :
  0 <= m ->
  let '(mrs, e1) := shr_fexp prec emax m e l in
  0 <= shr_m mrs <= m /\ e1 = Z.max e (fexp prec emax (Zdigits2 m + e)).
Proof.
  intros Hm. unfold shr_fexp, shr.
  destruct (fexp prec emax (Zdigits2 m + e) - e) as [| p | p] eqn:E.
  - rewrite shr_record_of_loc_m. lia.
  - split; [apply iter_shr_1_bounds; rewrite shr_record_of_loc_m; lia | lia].
  - rewrite shr_record_of_loc_m. lia.
Qed.

(** Rounding a value of at most 2 does not reach the infinity. *)
Lemma binary_round_aux_finite (s : bool) (m e : Z) (l : location) :
  0 <= m -> Zdigits2 m + e <= 1 -> -1074 <= e <= 0 ->
  match binary_round_aux prec emax s m e l with
  | S754_infinity _ => False
  | _ => True
  end.
Proof.
  intros Hm Hd He. unfold binary_round_aux.
  pose proof (shr_fexp_bounds m e l Hm) as H1.
  destruct (shr_fexp prec emax m e l) as [mrs1 e1].
  destruct H1 as [Hm1 He1].
  set (mr := round_nearest_even (shr_m mrs1) (loc_of_shr_record mrs1)).
  pose proof (round_nearest_even_bounds (shr_m mrs1) (loc_of_shr_record mrs1)) as Hr.
  fold mr in Hr.
  assert (Hmr : 0 <= mr) by lia.
  pose proof (shr_fexp_bounds mr e1 loc_Exact Hmr) as H2.
  destruct (shr_fexp prec emax mr e1 loc_Exact) as [mrs2 e2].
  destruct H2 as [Hm2 He2].
  destruct (shr_m mrs2) as [| p | p]; try exact I.
  destruct (e2 <=? emax - prec) eqn:E; [exact I |].
  apply Z.leb_gt in E. change (emax - prec) with 971 in E.
  rewrite fexp_eq in He1, He2.
  pose proof (Zdigits2_nonneg m) as Hdm.
  assert (Hdr : Zdigits2 mr <= Zdigits2 m + 1) by (apply Zdigits2_succ; lia).
  lia.
Qed.

(** [a / b] with [0 < a <= b] returns a float: the quotient is at most 1,
    far from the overflow. *)
Lemma true_div_defined (a b : Z) :
  0 < a -> a <= b -> exists f, true_div a b = inr f.
Proof.
  intros Ha Hab. unfold true_div.
  replace (b =? 0) with false by (symmetry; apply Z.eqb_neq; lia).
  replace (a =? 0) with false by (symmetry; apply Z.eqb_neq; lia).
  rewrite !Z.abs_eq by lia.
  unfold SFdiv_core_binary.
  set (e' := Z.min (fexp prec emax (Zdigits2 a + 0 - (Zdigits2 b + 0))) (0 - 0)).
  assert (Hd : Zdigits2 a <= Zdigits2 b).
  { apply Zdigits2_le; [| apply Zdigits2_nonneg].
    pose proof (Zdigits2_upper b ltac:(lia)). lia. }
  assert (He' : -1074 <= e' <= -53).
  { unfold e'. rewrite fexp_eq. lia. }
  replace (0 - 0 - e') with (- e') by lia.
  destruct (- e') as [| s | s] eqn:Es; try lia.
  rewrite Z.shiftl_mul_pow2 by lia.
  pose proof (Z.div_eucl_eq (a * 2 ^ Z.pos s) b ltac:(lia)) as Hq.
  pose proof (Z.mod_pos_bound (a * 2 ^ Z.pos s) b ltac:(lia)) as Hr.
  unfold Z.modulo in Hr.
  destruct (Z.div_eucl (a * 2 ^ Z.pos s) b) as [q r].
  assert (H2 : 0 < 2 ^ Z.pos s) by (apply Z.pow_pos_nonneg; lia).
  assert (Hq0 : 0 <= q) by nia.
  assert (Hq1 : q <= 2 ^ Z.pos s) by nia.
  pose proof (binary_round_aux_finite (xorb (a <? 0) (b <? 0)) q e'
                (new_location b r)) as Hfin.
  destruct (binary_round_aux prec emax _ q e' _) eqn:Er;
    try (eexists; unfold ret; reflexivity).
  exfalso. apply Hfin; try lia.
  assert (Zdigits2 q <= Z.pos s + 1).
  { apply Zdigits2_le; [| lia]. rewrite Z.pow_add_r by lia. lia. }
  lia.
Qed.

Lemma utilization_defined (k : nat) (l : list Region) :
  0 < total_cells l -> total_cells l <= get_advice l * table_height k ->
  exists f, utilization k l = inr f.
Proof.
  intros Hu Ha. unfold utilization. rewrite cell_usage_eq.
  now apply true_div_defined.
Qed.

Lemma layouts_advice_pos (k : nat) (regions : list Region) :
  regions <> [] ->
  Forall (fun r => 0 < width r /\ 0 < height r <= table_height k) regions ->
  0 < total_cells regions /\
  0 < get_advice (snd (solve_v3 k regions)) <= get_advice (snd (solve_v1 k regions)).
Proof.
  intros Hne Hwf.
  assert (Hwf' : Forall (fun r => 0 <= width r /\ 0 <= height r <= table_height k) regions)
    by (eapply Forall_impl; [| exact Hwf]; cbn; lia).
  assert (Hw : Forall (fun r => 0 <= width r) regions)
    by (eapply Forall_impl; [| exact Hwf]; cbn; lia).
  destruct (shelf_width_le_naive k regions Hw) as [H3 H1].
  destruct (layouts_cells k regions Hwf') as [_ [_ Hc]].
  assert (Hpos : 0 < total_cells regions).
  { destruct regions as [| r l]; [congruence |].
    inversion Hwf as [| ? ? (Hrw & Hrh & _) Hl]; subst.
    rewrite total_cells_cons.
    assert (0 <= total_cells l).
    { apply total_cells_nonneg. eapply Forall_impl; [| exact Hl]. cbn. lia. }
    nia. }
  pose proof (table_height_pos k). split; [exact Hpos |]. split; [nia | lia].
Qed.

(** X8: for a non-empty input of regions with positive sizes that fit the
    table height, both layouts keep the cells of the input within the area
    they occupy: the used cells are the sum of [width * height] of the
    input, positive and at most the area, so the exact quotient
    [used cells / area] lies in (0, 1], and the float that the program
    computes for it is defined: the division neither divides by zero nor
    overflows. *)
Theorem utilization_at_most_one (k : nat) (regions out : list Region) :
  regions <> [] ->
  Forall (fun r => 0 < width r /\ 0 < height r <= table_height k) regions ->
  out = snd (solve_v1 k regions) \/ out = snd (solve_v3 k regions) ->
  exists area used q f,
    cell_usage k out = (area, used) /\
    used = total_cells regions /\ 0 < used <= area /\
    exact_utilization k out = inr q /\ (0 < q <= 1)%Q /\
    utilization k out = inr f.
Proof.
  intros Hne Hwf Hout.
  assert (Hwf' : Forall (fun r => 0 <= width r /\ 0 <= height r <= table_height k) regions)
    by (eapply Forall_impl; [| exact Hwf]; cbn; lia).
  destruct (layouts_cells k regions Hwf') as [[Hc1 Ha1] [Hc3 Ha3]].
  destruct (layouts_advice_pos k regions Hne Hwf) as [Hu [Hp3 Hp31]].
  pose proof (table_height_pos k) as Hn.
  assert (Hgen : forall l, total_cells l = total_cells regions ->
             total_cells regions <= get_advice l * table_height k ->
             0 < get_advice l ->
             exists area used q f,
               cell_usage k l = (area, used) /\
               used = total_cells regions /\ 0 < used <= area /\
               exact_utilization k l = inr q /\ (0 < q <= 1)%Q /\
               utilization k l = inr f).
  { intros l Hc Ha Hp.
    destruct (utilization_defined k l) as [f Hf]; [lia | lia |].
    exists (get_advice l * table_height k), (total_cells l),
      (inject_Z (total_cells l) / inject_Z (get_advice l * table_height k))%Q, f.
    split; [apply cell_usage_eq |].
    split; [exact Hc |]. split; [lia |].
    split; [apply exact_utilization_eq; exact Hp |].
    split; [apply Qdiv_unit; lia | exact Hf]. }
  destruct Hout as [-> | ->]; apply Hgen; auto; lia.
Qed.

Lemma utilization_at_most_one_witness :
  exists area used q f,
    cell_usage 3 (snd (solve_v3 3 [new_region (Some "A") 2 3; new_region (Some "B") 1 6]))
      = (area, used) /\
    used = total_cells [new_region (Some "A") 2 3; new_region (Some "B") 1 6] /\
    0 < used <= area /\
    exact_utilization 3 (snd (solve_v3 3 [new_region (Some "A") 2 3; new_region (Some "B") 1 6]))
      = inr q /\ (0 < q <= 1)%Q /\
    utilization 3 (snd (solve_v3 3 [new_region (Some "A") 2 3; new_region (Some "B") 1 6]))
      = inr f.
Proof.
  apply (utilization_at_most_one 3 [new_region (Some "A") 2 3; new_region (Some "B") 1 6]).
  - discriminate.
  - repeat constructor; cbn; lia.
  - right. reflexivity.
Defined.

(** X9: for a non-empty input of positive sizes that fit the table height,
    the utilization of the layout of [solve_v3] is at least that of the
    layout of [solve_v1]: the exact quotients [used cells / area] are so
    ordered, and the program's float divisions are both defined. *)
Theorem shelf_utilization_ge_naive (k : nat) (regions : list Region) :
  regions <> [] ->
  Forall (fun r => 0 < width r /\ 0 < height r <= table_height k) regions ->
  exists q1 q3,
    exact_utilization k (snd (solve_v1 k regions)) = inr q1 /\
    exact_utilization k (snd (solve_v3 k regions)) = inr q3 /\
    (q1 <= q3)%Q /\
    (exists f1, utilization k (snd (solve_v1 k regions)) = inr f1) /\
    (exists f3, utilization k (snd (solve_v3 k regions)) = inr f3).
Proof.
  intros Hne Hwf.
  assert (Hwf' : Forall (fun r => 0 <= width r /\ 0 <= height r <= table_height k) regions)
    by (eapply Forall_impl; [| exact Hwf]; cbn; lia).
  destruct (layouts_cells k regions Hwf') as [[Hc1 Ha1] [Hc3 Ha3]].
  destruct (layouts_advice_pos k regions Hne Hwf) as [Hu [Hp3 Hp31]].
  pose proof (table_height_pos k) as Hn.
  do 2 eexists. split; [apply exact_utilization_eq; lia |].
  split; [apply exact_utilization_eq; lia |].
  rewrite Hc1, Hc3. split; [| split].
  - apply Qdiv_le_cross; nia.
  - apply utilization_defined; lia.
  - apply utilization_defined; lia.
Qed.

Lemma shelf_utilization_ge_naive_witness :
  exists q1 q3,
    exact_utilization 3 (snd (solve_v1 3 [new_region (Some "A") 2 3; new_region (Some "B") 1 4])) = inr q1 /\
    exact_utilization 3 (snd (solve_v3 3 [new_region (Some "A") 2 3; new_region (Some "B") 1 4])) = inr q3 /\
    (q1 <= q3)%Q /\
    (exists f1, utilization 3 (snd (solve_v1 3 [new_region (Some "A") 2 3; new_region (Some "B") 1 4])) = inr f1) /\
    (exists f3, utilization 3 (snd (solve_v3 3 [new_region (Some "A") 2 3; new_region (Some "B") 1 4])) = inr f3).
Proof.
  apply shelf_utilization_ge_naive.
  - discriminate.
  - repeat constructor; cbn; lia.
Defined.

(** ** What the validator reports *)

Lemma find_none_iff {A : Type} (p : A -> bool) (l : list A) :
  find p l = None <-> Forall (fun a => p a = false) l.
Proof.
  split.
  - intros H. pose proof (find_first p l) as Hf. now rewrite H in Hf.
  - intros H. pose proof (find_first p l) as Hf.
    destruct (find p l) as [a |]; [| reflexivity].
    destruct Hf as (pre & post & -> & _ & Ha).
    apply Forall_app in H. destruct H as [_ H].
    inversion H; subst. congruence.
Qed.

Lemma first_overlap_some (regions : list Region) (ri rj : Region) :
  first_overlap regions = Some (ri, rj) ->
  In ri regions /\ In rj regions /\ overlap ri rj = true.
Proof.
  intros H. pose proof (first_overlap_first regions) as Hf.
  rewrite H in Hf. destruct Hf as (pre & mid & post & -> & Hij & _).
  repeat split; [| | exact Hij].
  - apply in_or_app. right. now left.
  - apply in_or_app. right. right. apply in_or_app. right. now left.
Qed.

(** X10: [check_valid] raises no false alarm: a region reported over the
    height does exceed the table height, the two regions of a reported
    overlap belong to the set and, when the second one has positive sizes,
    their boxes do intersect; and a diagnostic comes with the verdict
    [False] only. *)
Theorem no_false_alarm (k : nat) (regions : list Region) (ev : event) :
  In ev (fst (check_valid k regions)) ->
  snd (check_valid k regions) = false /\
  match ev with
  | OverHeight r => In r regions /\ table_height k < y r + height r
  | Overlapping ri rj =>
      In ri regions /\ In rj regions /\ (positive_sizes rj -> intersects ri rj)
  | InvalidSolution => False
  end.
Proof.
  unfold check_valid.
  pose proof (find_first (over_height (table_height k)) regions) as Hf.
  destruct (find (over_height (table_height k)) regions) as [r |].
  - cbn. intros [<- | []]. split; [reflexivity |].
    destruct Hf as (pre & post & -> & _ & Hr).
    split; [apply in_or_app; right; now left |].
    unfold over_height in Hr. now apply Z.ltb_lt in Hr.
  - destruct (first_overlap regions) as [[ri rj] |] eqn:Ho.
    + cbn. intros [<- | []]. split; [reflexivity |].
      apply first_overlap_some in Ho. destruct Ho as (Hi & Hj & Hij).
      split; [exact Hi | split; [exact Hj |]].
      intros [Hw Hh]. now apply overlap_intersects.
    + cbn. intros [].
Qed.

Lemma no_false_alarm_witness :
  let a := mkRegion (Some "a") 2 2 0 0 in
  let b := mkRegion (Some "b") 2 2 1 1 in
  snd (check_valid 3 [a; b]) = false /\
  In a [a; b] /\ In b [a; b] /\ (positive_sizes b -> intersects a b).
Proof.
  cbv zeta.
  apply (no_false_alarm 3 [mkRegion (Some "a") 2 2 0 0; mkRegion (Some "b") 2 2 1 1]
           (Overlapping (mkRegion (Some "a") 2 2 0 0) (mkRegion (Some "b") 2 2 1 1))).
  cbn. left. reflexivity.
Defined.

Lemma check_valid_verdict (k : nat) (regions : list Region) :
  snd (check_valid k regions) = true <->
  Forall (fun r => y r + height r <= table_height k) regions /\
  first_overlap regions = None.
Proof.
  unfold check_valid.
  assert (Hiff : find (over_height (table_height k)) regions = None <->
                 Forall (fun r => y r + height r <= table_height k) regions).
  { rewrite find_none_iff. split; intros H; (eapply Forall_impl; [| exact H]);
      cbn; unfold over_height; intros r Hr;
      [apply Z.ltb_ge in Hr | apply Z.ltb_ge]; exact Hr. }
  destruct (find (over_height (table_height k)) regions) as [r |].
  - cbn. split; [discriminate |]. intros [H _]. apply Hiff in H. discriminate.
  - destruct (first_overlap regions) as [[ri rj] |]; cbn.
    + split; [discriminate | intros [_ H]; discriminate].
    + split; [| reflexivity]. intros _. split; [now apply Hiff | reflexivity].
Qed.

Lemma check_valid_true (k : nat) (regions : list Region) :
  snd (check_valid k regions) = true -> check_valid k regions = ([], true).
Proof.
  unfold check_valid.
  destruct (find _ regions); [discriminate |].
  destruct (first_overlap regions) as [[ri rj] |]; [discriminate | reflexivity].
Qed.

Lemma table_height_mono (k k' : nat) :
  (k <= k')%nat -> table_height k <= table_height k'.
Proof.
  intros H. unfold table_height. apply Z.pow_le_mono_r; lia.
Qed.

(** X11: a region set that [check_valid] accepts for the exponent [k] is
    accepted, without a diagnostic, for every larger exponent. *)
Theorem valid_for_larger_table (k k' : nat) (regions : list Region) :
  snd (check_valid k regions) = true -> (k <= k')%nat ->
  check_valid k' regions = ([], true).
Proof.
  intros Hv Hk. apply check_valid_true. apply check_valid_verdict.
  apply check_valid_verdict in Hv. destruct Hv as [Hh Ho].
  split; [| exact Ho].
  pose proof (table_height_mono k k' Hk).
  eapply Forall_impl; [| exact Hh]. cbn. lia.
Qed.

Lemma valid_for_larger_table_witness :
  check_valid 5 [mkRegion (Some "a") 2 8 0 0; mkRegion (Some "b") 2 2 2 0] = ([], true).
Proof.
  apply (valid_for_larger_table 3 5).
  - reflexivity.
  - lia.
Defined.

(** ** When the solvers print "Invalid solution" *)

Lemma solve_v3_loop_y_nonneg (n : Z) (regions : list Region) :
  Forall (fun r => 0 <= height r) regions ->
  forall (position : Point) (cur_width : Z),
    0 <= py position ->
    Forall (fun r => 0 <= y r) (solve_v3_loop n position cur_width regions).
Proof.
  induction 1 as [| r l Hr Hl IH]; intros position cur_width Hy.
  - constructor.
  - cbn [solve_v3_loop]. unfold solve_v3_step.
    destruct (py position + height r <? n); constructor;
      try (cbn; lia); apply IH; cbn; lia.
Qed.

Lemma solve_v1_loop_y (regions : list Region) (cur_width : Z) :
  Forall (fun r => 0 <= y r) (solve_v1_loop cur_width regions).
Proof.
  revert cur_width. induction regions as [| r l IH]; intros cur_width; cbn.
  - constructor.
  - constructor; [cbn; lia | apply IH].
Qed.

(** A layout with a region taller than the table is reported. *)
Lemma checked_too_tall (k : nat) (regions out : list Region) (r : Region) :
  Permutation (map dims out) (map dims regions) ->
  Forall (fun r' => 0 <= y r') out ->
  In r regions -> table_height k < height r ->
  exists r', In r' out /\ table_height k < y r' + height r' /\
             fst (checked k out) = [OverHeight r'; InvalidSolution].
Proof.
  intros Hp Hy Hin Htall.
  assert (Hex : exists r0, In r0 out /\ over_height (table_height k) r0 = true).
  { assert (Hd : In (dims r) (map dims out)).
    { eapply Permutation_in; [symmetry; exact Hp |]. now apply in_map. }
    apply in_map_iff in Hd. destruct Hd as (r0 & Hd & Hr0).
    exists r0. split; [exact Hr0 |].
    rewrite Forall_forall in Hy. specialize (Hy r0 Hr0).
    assert (height r0 = height r) by (unfold dims in Hd; congruence).
    unfold over_height. apply Z.ltb_lt. lia. }
  destruct Hex as (r0 & Hr0 & Hover).
  unfold checked, check_valid.
  pose proof (find_first (over_height (table_height k)) out) as Hf.
  destruct (find (over_height (table_height k)) out) as [r' |] eqn:Hfind.
  - destruct Hf as (pre & post & -> & _ & Hr').
    exists r'. split; [apply in_or_app; right; now left |].
    split; [| reflexivity].
    unfold over_height in Hr'. now apply Z.ltb_lt in Hr'.
  - rewrite Forall_forall in Hf. specialize (Hf r0 Hr0). congruence.
Qed.

(** X12: on regions of positive sizes, each solver prints nothing when
    every height is at most the table height, and otherwise prints exactly
    the diagnostic of one placed region that exceeds the table height,
    followed by "Invalid solution"; the layout is returned in both cases. *)
Theorem solvers_report_too_tall (k : nat) (regions : list Region) :
  Forall positive_sizes regions ->
  (Forall (fun r => height r <= table_height k) regions ->
   fst (solve_v1 k regions) = [] /\ fst (solve_v3 k regions) = []) /\
  (forall r, In r regions -> table_height k < height r ->
   (exists r1, In r1 (snd (solve_v1 k regions)) /\
               table_height k < y r1 + height r1 /\
               fst (solve_v1 k regions) = [OverHeight r1; InvalidSolution]) /\
   (exists r3, In r3 (snd (solve_v3 k regions)) /\
               table_height k < y r3 + height r3 /\
               fst (solve_v3 k regions) = [OverHeight r3; InvalidSolution])).
Proof.
  intros Hpos. split.
  - intros Hfit. apply solvers_pass_validation.
    rewrite Forall_forall in *. intros r Hr.
    destruct (Hpos r Hr) as [Hw Hh]. specialize (Hfit r Hr). lia.
  - intros r Hin Htall. split.
    + unfold solve_v1. rewrite snd_checked.
      apply (checked_too_tall k regions _ r); try assumption.
      * now rewrite solve_v1_loop_dims.
      * apply solve_v1_loop_y.
    + unfold solve_v3. rewrite snd_checked.
      apply (checked_too_tall k regions _ r); try assumption.
      * rewrite solve_v3_loop_dims. apply Permutation_map, sorted_perm.
      * apply solve_v3_loop_y_nonneg; [| cbn; lia].
        eapply Permutation_Forall; [symmetry; apply sorted_perm |].
        eapply Forall_impl; [| exact Hpos]. unfold positive_sizes. cbn. lia.
Qed.

Lemma solvers_report_too_tall_witness :
  exists r3, In r3 (snd (solve_v3 3 [new_region (Some "A") 2 3; new_region (Some "B") 1 9])) /\
             table_height 3 < y r3 + height r3 /\
             fst (solve_v3 3 [new_region (Some "A") 2 3; new_region (Some "B") 1 9])
               = [OverHeight r3; InvalidSolution].
Proof.
  apply (solvers_report_too_tall 3 [new_region (Some "A") 2 3; new_region (Some "B") 1 9])
    with (r := new_region (Some "B") 1 9).
  - repeat constructor; cbn; lia.
  - cbn. tauto.
  - vm_compute. reflexivity.
Defined.

(** ** Errors of the region catalog *)

Lemma int_of_float_inl (f : float) (e : exn) :
  int_of_float f = inl e ->
  is_finite f = false /\ (e = ValueError \/ e = OverflowError).
Proof.
  unfold int_of_float, is_finite, raise, ret.
  destruct (is_nan f), (is_infinity f); cbn; intros H;
    try discriminate H; inversion H; auto.
Qed.

Lemma int_of_float_inr (f : float) (z : Z) :
  int_of_float f = inr z -> is_finite f = true.
Proof.
  unfold int_of_float, is_finite, raise, ret.
  destruct (is_nan f), (is_infinity f); cbn; intros H;
    try discriminate H; reflexivity.
Qed.

(** X13: whatever the gas budget, [get_regions] raises no [KeyError] and
    no [TypeError]: every configured name is in the tables it is looked up
    in.  The only errors are those of [int(...)] on a product that is not
    finite: [ValueError] or [OverflowError]. *)
Theorem get_regions_errors (gas : float) (e : exn) :
  get_regions gas = inl e ->
  (e = ValueError \/ e = OverflowError) /\ finite_rows gas = false.
Proof.
  unfold get_regions, circuits_tables. cbn. intros H.
  repeat match type of H with
         | context [int_of_float ?p] =>
             let E := fresh "E" in
             destruct (int_of_float p) eqn:E; cbn in H;
             [ injection H as H; subst;
               apply int_of_float_inl in E; destruct E as [E He];
               split; [exact He |];
               repeat match goal with
                      | E' : int_of_float _ = inr _ |- _ =>
                          apply int_of_float_inr in E'
                      end;
               unfold finite_rows; cbn;
               repeat match goal with
                      | E' : is_finite _ = _ |- _ => rewrite E'; clear E'
                      end;
               reflexivity
             | ]
         end.
  discriminate H.
Qed.

Lemma get_regions_errors_witness :
  (OverflowError = ValueError \/ OverflowError = OverflowError) /\
  finite_rows infinity = false.
Proof.
  apply (get_regions_errors infinity OverflowError).
  vm_compute. reflexivity.
Defined.

Lemma SFcompare_refl_finite (s : bool) (m : positive) (e : Z) :
  SFcompare (S754_finite s m e) (S754_finite s m e) = Some Eq.
Proof.
  cbn. rewrite Z.compare_refl, Pos.compare_refl.
  destruct s; reflexivity.
Qed.

(** The floats that are not finite are the NaN and the two infinities. *)
Lemma not_finite_cases (f : float) :
  is_finite f = false ->
  (is_nan f = true /\ f = nan) \/
  (is_nan f = false /\ (f = infinity \/ f = neg_infinity)).
Proof.
  unfold is_finite. intros H. apply negb_false_iff, orb_true_iff in H.
  destruct (is_nan f) eqn:En.
  - left. split; [reflexivity |].
    unfold is_nan in En. rewrite FloatAxioms.eqb_spec in En.
    apply negb_true_iff in En. unfold SFeqb in En.
    rewrite <- (SF2Prim_Prim2SF f).
    destruct (Prim2SF f) as [s | s | | s m e]; try reflexivity.
    + destruct s; discriminate En.
    + destruct s; discriminate En.
    + rewrite SFcompare_refl_finite in En. discriminate En.
  - right. split; [reflexivity |].
    destruct H as [H | H]; [discriminate |].
    unfold is_infinity in H. rewrite FloatAxioms.eqb_spec, abs_spec in H.
    rewrite <- (SF2Prim_Prim2SF f).
    destruct (Prim2SF f) as [s | s | | s m e]; try discriminate H.
    destruct s; [right | left]; reflexivity.
Qed.

(** X14: on a gas budget that is not a finite float, [get_regions] raises:
    [ValueError] on a NaN, [OverflowError] on an infinity. *)
Theorem get_regions_not_finite (gas : float) :
  is_finite gas = false ->
  get_regions gas = inl (if is_nan gas then ValueError else OverflowError).
Proof.
  intros H. apply not_finite_cases in H.
  destruct H as [[-> ->] | [-> [-> | ->]]]; vm_compute; reflexivity.
Qed.

Lemma get_regions_not_finite_witness :
  get_regions neg_infinity = inl OverflowError.
Proof.
  apply (get_regions_not_finite neg_infinity). vm_compute. reflexivity.
Defined.

(** X15: whenever [get_regions] returns, it returns the same nine names
    and widths, whatever the gas budget; so the layout of [solve_v1] always
    occupies 626 advice columns, and that of [solve_v3] at most as many,
    for every exponent [k]. *)
Theorem catalog_widths_fixed (gas : float) (k : nat) (regions : list Region) :
  get_regions gas = inr regions ->
  map (fun r => (name r, width r)) regions =
    [ (Some "evm", 131); (Some "bytecode", 12); (Some "copy", 26);
      (Some "exp", 15); (Some "keccak", 203); (Some "mpt", 156);
      (Some "rw", 63); (Some "tx", 10); (Some "pi", 10) ] /\
  get_advice (snd (solve_v1 k regions)) = 626 /\
  get_advice (snd (solve_v3 k regions)) <= 626.
Proof.
  unfold get_regions, circuits_tables. cbn. intros H.
  repeat match type of H with
         | context [int_of_float ?p] =>
             destruct (int_of_float p); cbn in H; [discriminate H |]
         end.
  injection H as <-.
  split; [reflexivity |].
  match goal with
  | |- get_advice (snd (solve_v1 k ?l)) = _ /\ _ =>
      assert (Hw : Forall (fun r => 0 <= width r) l)
        by (repeat constructor; cbn; lia);
      assert (Ht : total_width l = 626) by reflexivity;
      assert (H1 : get_advice (snd (solve_v1 k l)) <= total_width l)
        by (unfold solve_v1, get_advice; rewrite snd_checked;
            apply get_advice_loop_le;
            [now apply total_width_nonneg
            | apply (solve_v1_loop_right_edge l Hw 0)]);
      destruct (shelf_width_le_naive k l Hw) as [H3 H1']
  end.
  split; lia.
Qed.

Lemma catalog_widths_fixed_witness :
  get_advice (snd (solve_v1 26 (catalog 741534))) = 626 /\
  get_advice (snd (solve_v3 26 (catalog 741534))) <= 626.
Proof.
  apply (catalog_widths_fixed 741534 26 (catalog 741534)).
  vm_compute. reflexivity.
Defined.

(** ** Memory estimate *)

(** X16: [to_gb] is the floor of the division by [2^30]: three floor
    divisions by 1024 lose nothing more than one, also on negative
    numbers; so it is monotone. *)
Theorem to_gb_floor (v w : Z) :
  to_gb v = v / 2 ^ 30 /\
  2 ^ 30 * to_gb v <= v < 2 ^ 30 * (to_gb v + 1) /\
  (v <= w -> to_gb v <= to_gb w).
Proof.
  assert (H : forall a, to_gb a = a / 2 ^ 30).
  { intros a. unfold to_gb. rewrite !Z.div_div by lia. reflexivity. }
  rewrite !H. split; [reflexivity |]. split.
  - pose proof (Z.div_mod v (2 ^ 30) ltac:(lia)).
    pose proof (Z.mod_pos_bound v (2 ^ 30) ltac:(lia)). lia.
  - intros Hle. apply Z.div_le_mono; lia.
Qed.

Lemma next_power_of_2_cases (ceil_log2 : Z -> Z) (v : Z) :
  (v < 0 /\ next_power_of_2 ceil_log2 v = inl ValueError) \/
  (0 <= v /\ exists e, next_power_of_2 ceil_log2 v = inr e /\ 0 <= e).
Proof.
  unfold next_power_of_2.
  destruct (v =? 0) eqn:E0; [apply Z.eqb_eq in E0 | apply Z.eqb_neq in E0].
  - right. split; [lia |]. exists 1. split; [reflexivity | lia].
  - destruct (v <? 0) eqn:E1; [apply Z.ltb_lt in E1 | apply Z.ltb_ge in E1].
    + left. split; [lia | reflexivity].
    + right. split; [lia |]. eexists. split; [reflexivity |].
      apply Z.pow_nonneg. lia.
Qed.

(** X17: [estimate_mem] returns exactly when the degree is at least 1; for
    a smaller degree [math.log2] is applied to a negative number and the
    call raises [ValueError], whatever the other arguments. *)
Theorem estimate_mem_defined (ceil_log2 : Z -> Z) (degree : Z) (k : nat)
    (fixed advice : Z) :
  (1 <= degree /\ exists m, estimate_mem ceil_log2 degree k fixed advice = inr m) \/
  (degree < 1 /\ estimate_mem ceil_log2 degree k fixed advice = inl ValueError).
Proof.
  unfold estimate_mem.
  destruct (next_power_of_2_cases ceil_log2 (degree - 1))
    as [[Hneg ->] | [Hpos (e & -> & He)]]; cbn.
  - right. split; [lia | reflexivity].
  - left. split; [lia |]. eexists. reflexivity.
Qed.

Lemma estimate_mem_le (ceil_log2 : Z -> Z) (degree : Z) (k : nat)
    (fixed advice fixed' advice' : Z) :
  1 <= degree -> fixed + advice <= fixed' + advice' ->
  exists m m',
    estimate_mem ceil_log2 degree k fixed advice = inr m /\
    estimate_mem ceil_log2 degree k fixed' advice' = inr m' /\
    m <= m' /\ to_gb m <= to_gb m'.
Proof.
  intros Hd Hle. unfold estimate_mem.
  destruct (next_power_of_2_cases ceil_log2 (degree - 1))
    as [[Hneg _] | [_ (e & -> & He)]]; [lia |]. cbn.
  do 2 eexists. split; [reflexivity |]. split; [reflexivity |].
  assert (Hk : 0 < 2 ^ Z.of_nat k) by (apply Z.pow_pos_nonneg; lia).
  assert (Hm : e * (4 + fixed + advice) * 2 ^ Z.of_nat k * field_bytes <=
               e * (4 + fixed' + advice') * 2 ^ Z.of_nat k * field_bytes).
  { unfold field_bytes.
    apply Z.mul_le_mono_nonneg_r; [lia |].
    apply Z.mul_le_mono_nonneg_r; [lia |].
    apply Z.mul_le_mono_nonneg_l; lia. }
  split; [exact Hm |].
  unfold to_gb. repeat apply Z.div_le_mono; try lia. exact Hm.
Qed.

Lemma estimate_mem_succ (ceil_log2 : Z -> Z) (degree : Z) (k : nat)
    (fixed advice m : Z) :
  estimate_mem ceil_log2 degree k fixed advice = inr m ->
  estimate_mem ceil_log2 degree (S k) fixed advice = inr (2 * m).
Proof.
  unfold estimate_mem.
  destruct (next_power_of_2 ceil_log2 (degree - 1)) as [err | e];
    unfold bind, ret; intros H; [discriminate H |].
  assert (Hm : e * (4 + fixed + advice) * 2 ^ Z.of_nat k * field_bytes = m)
    by congruence.
  rewrite <- Hm. apply f_equal.
  rewrite Nat2Z.inj_succ, Z.pow_succ_r by lia. ring.
Qed.

(** X18: for a degree of at least 1, [estimate_mem] is monotone in the sum
    [fixed + advice] (and so is the figure in GiB that [to_gb] derives from
    it), and one more in the exponent [k] doubles it. *)
Theorem estimate_mem_monotone (ceil_log2 : Z -> Z) (degree : Z) (k : nat)
    (fixed advice fixed' advice' : Z) :
  1 <= degree -> fixed + advice <= fixed' + advice' ->
  exists m m',
    estimate_mem ceil_log2 degree k fixed advice = inr m /\
    estimate_mem ceil_log2 degree k fixed' advice' = inr m' /\
    m <= m' /\ to_gb m <= to_gb m' /\
    estimate_mem ceil_log2 degree (S k) fixed advice = inr (2 * m).
Proof.
  intros Hd Hle.
  destruct (estimate_mem_le ceil_log2 degree k fixed advice fixed' advice' Hd Hle)
    as (m & m' & Hm & Hm' & H1 & H2).
  exists m, m'. repeat split; try assumption.
  now apply estimate_mem_succ.
Qed.

Lemma estimate_mem_monotone_witness :
  exists m m',
    estimate_mem Z.log2_up 10 26 65 200 = inr m /\
    estimate_mem Z.log2_up 10 26 65 626 = inr m' /\
    m <= m' /\ to_gb m <= to_gb m' /\
    estimate_mem Z.log2_up 10 27 65 200 = inr (2 * m).
Proof.
  apply estimate_mem_monotone; lia.
Defined.

Lemma get_fixed_value : get_fixed = inr 65.
Proof. reflexivity. Qed.

(** X19: with the fixed columns that [get_fixed] counts (it raises no
    [KeyError]) and a degree of at least 1, the memory that [estimate_mem]
    gives for the layout of [solve_v3] is at most the one it gives for the
    layout of [solve_v1], in bytes and in GiB, for every region sequence
    without negative widths. *)
Theorem shelf_memory_le_naive (ceil_log2 : Z -> Z) (degree : Z) (k : nat)
    (regions : list Region) :
  1 <= degree ->
  Forall (fun r => 0 <= width r) regions ->
  exists fixed mem_v1 mem_v3,
    get_fixed = inr fixed /\
    estimate_mem ceil_log2 degree k fixed (get_advice (snd (solve_v1 k regions)))
      = inr mem_v1 /\
    estimate_mem ceil_log2 degree k fixed (get_advice (snd (solve_v3 k regions)))
      = inr mem_v3 /\
    mem_v3 <= mem_v1 /\ to_gb mem_v3 <= to_gb mem_v1.
Proof.
  intros Hd Hw.
  destruct (shelf_width_le_naive k regions Hw) as [H3 H1].
  destruct (estimate_mem_le ceil_log2 degree k 65
              (get_advice (snd (solve_v3 k regions))) 65
              (get_advice (snd (solve_v1 k regions))) Hd ltac:(lia))
    as (m3 & m1 & Hm3 & Hm1 & Hle & Hgb).
  exists 65, m1, m3. repeat split; assumption || apply get_fixed_value.
Qed.

Lemma shelf_memory_le_naive_witness :
  exists fixed mem_v1 mem_v3,
    get_fixed = inr fixed /\
    estimate_mem Z.log2_up 10 3 fixed
      (get_advice (snd (solve_v1 3 [new_region (Some "A") 2 3; new_region (Some "B") 1 4])))
      = inr mem_v1 /\
    estimate_mem Z.log2_up 10 3 fixed
      (get_advice (snd (solve_v3 3 [new_region (Some "A") 2 3; new_region (Some "B") 1 4])))
      = inr mem_v3 /\
    mem_v3 <= mem_v1 /\ to_gb mem_v3 <= to_gb mem_v1.
Proof.
  apply shelf_memory_le_naive.
  - lia.
  - repeat constructor; cbn; lia.
Defined.

(** ** Maximum gas and the catalog it gives *)

Lemma forallb_range (p : nat -> bool) (lo len k : nat) :
  forallb p (seq lo len) = true -> (lo <= k < lo + len)%nat -> p k = true.
Proof.
  intros H Hk. rewrite forallb_forall in H. apply H. apply in_seq. exact Hk.
Qed.

(** X20: for every exponent [k] up to 60, [max_gas(k)] is exact: it is the
    float of the integer [floor(2^k / 90.5)], that is [2^(k+1) // 181],
    90.5 being the largest ratio of the table. *)
Theorem max_gas_exact (k : nat) :
  (k <= 60)%nat ->
  exists gas,
    max_gas k = inr (RFloat gas) /\
    float_of_int (2 ^ (Z.of_nat k + 1) / 181) = inr gas /\
    int_of_float gas = inr (2 ^ (Z.of_nat k + 1) / 181).
Proof.
  intros Hk.
  assert (Hall : forallb max_gas_exactb (seq 0 61) = true)
    by (vm_compute; reflexivity).
  apply (forallb_range _ 0 61 k) in Hall; [| lia].
  unfold max_gas_exactb in Hall.
  destruct (max_gas k) as [e | [| z | gas]]; try discriminate Hall.
  exists gas.
  destruct (float_of_int _) as [e | gas']; [discriminate Hall |].
  apply andb_true_iff in Hall. destruct Hall as [Heq Hint].
  apply FloatAxioms.Leibniz.eqb_spec in Heq. subst gas'.
  destruct (int_of_float gas) as [e | z]; [discriminate Hint |].
  apply Z.eqb_eq in Hint. subst z.
  repeat split; reflexivity.
Qed.

Lemma max_gas_exact_witness :
  exists gas,
    max_gas 26 = inr (RFloat gas) /\
    float_of_int (2 ^ (Z.of_nat 26 + 1) / 181) = inr gas /\
    int_of_float gas = inr (2 ^ (Z.of_nat 26 + 1) / 181).
Proof.
  apply max_gas_exact. lia.
Defined.

Lemma forallb_Forall_sizes (k : nat) (regions : list Region) :
  forallb (fun r => (0 <? width r) && (0 <? height r) &&
                    (height r <=? table_height k)) regions = true ->
  Forall (fun r => 0 < width r /\ 0 < height r <= table_height k) regions.
Proof.
  rewrite forallb_forall, Forall_forall. intros H r Hr.
  specialize (H r Hr).
  apply andb_true_iff in H. destruct H as [H H3].
  apply andb_true_iff in H. destruct H as [H1 H2].
  apply Z.ltb_lt in H1, H2. apply Z.leb_le in H3. lia.
Qed.

(** X21: for every exponent [k] from 19 to 1023, the gas that [max_gas(k)]
    returns is a float on which [get_regions] succeeds, every region of the
    catalog has positive sizes and a height of at most [2^k], and both
    solvers lay the catalog out without printing anything. *)
Theorem max_gas_catalog_fits (k : nat) :
  (19 <= k <= 1023)%nat ->
  exists gas regions,
    max_gas k = inr (RFloat gas) /\
    get_regions gas = inr regions /\
    Forall (fun r => 0 < width r /\ 0 < height r <= table_height k) regions /\
    fst (solve_v1 k regions) = [] /\ fst (solve_v3 k regions) = [].
Proof.
  intros Hk.
  assert (Hall : forallb catalog_fitsb (seq 19 1005) = true)
    by (vm_compute; reflexivity).
  apply (forallb_range _ 19 1005 k) in Hall; [| lia].
  unfold catalog_fitsb in Hall.
  destruct (max_gas k) as [e | [| z | gas]]; try discriminate Hall.
  exists gas.
  destruct (get_regions gas) as [e | regions]; [discriminate Hall |].
  exists regions.
  apply forallb_Forall_sizes in Hall.
  destruct (solvers_pass_validation k regions Hall) as [H1 H3].
  repeat split; try reflexivity; assumption.
Qed.

Lemma max_gas_catalog_fits_witness :
  exists gas regions,
    max_gas 26 = inr (RFloat gas) /\
    get_regions gas = inr regions /\
    Forall (fun r => 0 < width r /\ 0 < height r <= table_height 26) regions /\
    fst (solve_v1 26 regions) = [] /\ fst (solve_v3 26 regions) = [].
Proof.
  apply max_gas_catalog_fits. lia.
Defined.

Lemma tx_reportedb_spec (events : list event) :
  tx_reportedb events = true ->
  exists r, events = [OverHeight r; InvalidSolution] /\
            name r = Some "tx" /\ height r = 295188.
Proof.
  unfold tx_reportedb.
  destruct events as [| [r | |] [| [| |] [|]]]; try discriminate.
  destruct (name r) as [s |] eqn:Hn; [| discriminate].
  intros H. apply andb_true_iff in H. destruct H as [Hs Hh].
  apply String.eqb_eq in Hs. apply Z.eqb_eq in Hh. subst s.
  exists r. repeat split; assumption.
Qed.

(** X22: for every exponent [k] up to 18 the catalog of [max_gas(k)] does
    not fit: the region "tx" keeps its minimum of 295188 rows, more than
    [2^k], and each solver prints the diagnostic of that region followed by
    "Invalid solution". *)
Theorem small_table_tx_too_tall (k : nat) :
  (k <= 18)%nat ->
  exists gas regions r1 r3,
    max_gas k = inr (RFloat gas) /\
    get_regions gas = inr regions /\
    fst (solve_v1 k regions) = [OverHeight r1; InvalidSolution] /\
    fst (solve_v3 k regions) = [OverHeight r3; InvalidSolution] /\
    name r1 = Some "tx" /\ height r1 = 295188 /\
    name r3 = Some "tx" /\ height r3 = 295188 /\
    table_height k < 295188.
Proof.
  intros Hk.
  assert (Hall : forallb tx_too_tallb (seq 0 19) = true)
    by (vm_compute; reflexivity).
  apply (forallb_range _ 0 19 k) in Hall; [| lia].
  unfold tx_too_tallb in Hall.
  destruct (max_gas k) as [e | [| z | gas]]; try discriminate Hall.
  exists gas.
  destruct (get_regions gas) as [e | regions]; [discriminate Hall |].
  exists regions.
  apply andb_true_iff in Hall. destruct Hall as [H1 H3].
  apply tx_reportedb_spec in H1, H3.
  destruct H1 as (r1 & E1 & N1 & T1). destruct H3 as (r3 & E3 & N3 & T3).
  exists r1, r3. repeat split; try reflexivity; try assumption.
  pose proof (table_height_mono k 18 Hk) as Hm.
  assert (table_height 18 = 262144) by reflexivity. lia.
Qed.

Lemma small_table_tx_too_tall_witness :
  exists gas regions r1 r3,
    max_gas 10 = inr (RFloat gas) /\
    get_regions gas = inr regions /\
    fst (solve_v1 10 regions) = [OverHeight r1; InvalidSolution] /\
    fst (solve_v3 10 regions) = [OverHeight r3; InvalidSolution] /\
    name r1 = Some "tx" /\ height r1 = 295188 /\
    name r3 = Some "tx" /\ height r3 = 295188 /\
    table_height 10 < 295188.
Proof.
  apply small_table_tx_too_tall. lia.
Defined.
